(** * oauth-client: the token store and its refresh coordination

    A shallow embedding of [src/index.ts] (the [TokenStore] and
    [OAuth2Client] classes) and the properties of its refresh logic.

    The JavaScript host is single threaded: a task (a call made by the
    application, the settlement of an [axios.post] promise, the firing of a
    timer) runs to completion together with the promise reactions it
    triggers before the next task starts.  The embedding follows that: one
    [step] per task, and inside a step the promise chain of the source is
    run handler by handler in a state-and-exception monad. *)

From Stdlib Require Import ZArith String List Lia.
From stdpp Require Import base option list gmap.

Local Open Scope Z_scope.
Local Open Scope nat_scope.

(** ** Data model *)

(** [OAuth2ClientOptions]; the [axios] field is the HTTP transport, which is
    the environment of the model (see [event]). *)
Record OAuth2ClientOptions := {
  clientId : string;
  clientSecret : string;
  tokenEndpoint : string;
  scopes : option (list string);
}.

Record OAuth2ClientTokens := {
  access_token : string;
  expires_in : Z;
  refresh_token : string;
  scope : string;
  token_type : string;
}.

Inductive GrantType := ad | password | refresh_token_grant.

Record ClientOptions := {
  client_id : string;
  code : option string;
  state : option string;
  username : option string;
  password_ : option string;
  client_secret : string;
  grant_type : GrantType;
  scope_ : option string;
}.

(** [OAuth2ClientTokensWithExpiration extends OAuth2ClientTokens]. *)
Record OAuth2ClientTokensWithExpiration := {
  inherited :> OAuth2ClientTokens;
  expires_at : Z;
}.

(** What a promise can be rejected with, or a function can throw: the
    error of the transport, or [new Error(message)]. *)
Inductive JsError :=
| AxiosError (info : string)
| Error (message : string).

Inductive Settled (A : Type) :=
| Fulfilled (a : A)
| Rejected (e : JsError).
Arguments Fulfilled {A} a.
Arguments Rejected {A} e.

(** The body of a POST to the token endpoint: the [ClientOptions] of a
    grant, or the object literal built by [getNewAccessToken]. *)
Inductive PostBody :=
| GrantBody (c : ClientOptions)
| RefreshBody (grant : GrantType) (refreshToken : string)
              (id secret : string) (scope_list : option string).

Record PostRequest := {
  url : string;
  body : PostBody;
  headers : list (string * string);
}.

Record AxiosResponse := { data : OAuth2ClientTokens }.

(** An [async] function of the source that awaits one [axios.post] and
    then returns or throws: the request it sends, and what its promise
    settles to from the settlement of the POST and the value of
    [Date.now()] when it resumes. *)
Record AsyncPost (A : Type) := {
  request : PostRequest;
  resume : Z -> Settled AxiosResponse -> Settled A;
}.
Arguments request {A} _.
Arguments resume {A} _ _ _.

(** A callback given to [onRefreshToken]: a name to recognise it in the
    trace, and whether it returns ([None]) or throws on a token set. *)
Record Callback := {
  cb_name : string;
  cb_run : OAuth2ClientTokensWithExpiration -> option JsError;
}.

Record TokenStore := {
  options : OAuth2ClientOptions;
  tokens : OAuth2ClientTokensWithExpiration;
  _promise : option nat;
  onTokensRefreshedCallback : option Callback;
}.

(** [new TokenStore(options, tokens)] *)
Definition new_TokenStore (o : OAuth2ClientOptions)
    (t : OAuth2ClientTokensWithExpiration) : TokenStore :=
  {| options := o; tokens := t; _promise := None;
     onTokensRefreshedCallback := None |}.

(** ** The host: promises, pending requests, timers *)

(** The promise created in [refreshToken]; the callers of
    [getAccessToken] suspended on it are its waiters, in arrival order. *)
Inductive PromiseState :=
| Pending (waiters : list nat)
| Done (r : Settled unit).

(** Which promise chain of [refreshToken] a pending POST feeds. *)
Inductive Attempt :=
| FirstAttempt (p : nat)
| RetryAttempt (p : nat).

Record PendingPost := {
  awaiting : Z -> Settled AxiosResponse -> Settled OAuth2ClientTokensWithExpiration;
  attempt : Attempt;
}.

(** What the store does that can be observed, in order. *)
Inductive effect :=
| Post (id : nat) (req : PostRequest)
| Assign (t : OAuth2ClientTokensWithExpiration)
| Notify (name : string) (t : OAuth2ClientTokensWithExpiration)
| ConsoleError (msg : string)
| SetTimeout (id : nat) (delay : Z)
| Resolve (p : nat)
| Reject (p : nat) (e : JsError)
| Deliver (caller : nat) (r : Settled string)
| Clear.

Record World := {
  store : TokenStore;
  promises : gmap nat PromiseState;
  requests : gmap nat PendingPost;
  timers : gmap nat (Z * nat);
  next_promise : nat;
  next_request : nat;
  next_timer : nat;
  trace : list effect;
}.

Definition initial_World (s : TokenStore) : World :=
  {| store := s; promises := ∅; requests := ∅; timers := ∅;
     next_promise := 0; next_request := 0; next_timer := 0; trace := [] |}.

(** ** State and exceptions *)

Inductive Completion (A : Type) :=
| Normal (a : A)
| Throw (e : JsError).
Arguments Normal {A} a.
Arguments Throw {A} e.

Definition M (A : Type) : Type := World -> Completion A * World.

Definition ret {A} (a : A) : M A := fun w => (Normal a, w).
Definition throw {A} (e : JsError) : M A := fun w => (Throw e, w).
Definition bind {A B} (k : A -> M B) (m : M A) : M B :=
  fun w => match m w with
           | (Normal a, w') => k a w'
           | (Throw e, w') => (Throw e, w')
           end.

#[global] Instance M_ret : MRet M := @ret.
#[global] Instance M_bind : MBind M := @bind.

Definition gets {A} (f : World -> A) : M A := fun w => (Normal (f w), w).
Definition modify (f : World -> World) : M unit := fun w => (Normal tt, f w).

Definition set_store (s : TokenStore) (w : World) : World :=
  {| store := s; promises := promises w; requests := requests w;
     timers := timers w; next_promise := next_promise w;
     next_request := next_request w; next_timer := next_timer w;
     trace := trace w |}.
Definition set_promises (m : gmap nat PromiseState) (w : World) : World :=
  {| store := store w; promises := m; requests := requests w;
     timers := timers w; next_promise := next_promise w;
     next_request := next_request w; next_timer := next_timer w;
     trace := trace w |}.
Definition set_requests (m : gmap nat PendingPost) (w : World) : World :=
  {| store := store w; promises := promises w; requests := m;
     timers := timers w; next_promise := next_promise w;
     next_request := next_request w; next_timer := next_timer w;
     trace := trace w |}.
Definition set_timers (m : gmap nat (Z * nat)) (w : World) : World :=
  {| store := store w; promises := promises w; requests := requests w;
     timers := m; next_promise := next_promise w;
     next_request := next_request w; next_timer := next_timer w;
     trace := trace w |}.
Definition set_next_promise (n : nat) (w : World) : World :=
  {| store := store w; promises := promises w; requests := requests w;
     timers := timers w; next_promise := n;
     next_request := next_request w; next_timer := next_timer w;
     trace := trace w |}.
Definition set_next_request (n : nat) (w : World) : World :=
  {| store := store w; promises := promises w; requests := requests w;
     timers := timers w; next_promise := next_promise w;
     next_request := n; next_timer := next_timer w;
     trace := trace w |}.
Definition set_next_timer (n : nat) (w : World) : World :=
  {| store := store w; promises := promises w; requests := requests w;
     timers := timers w; next_promise := next_promise w;
     next_request := next_request w; next_timer := n;
     trace := trace w |}.
Definition set_trace (t : list effect) (w : World) : World :=
  {| store := store w; promises := promises w; requests := requests w;
     timers := timers w; next_promise := next_promise w;
     next_request := next_request w; next_timer := next_timer w;
     trace := t |}.

Definition emit (e : effect) : M unit :=
  modify (fun w => set_trace (trace w ++ [e]) w).

(** ** Promise combinators

    [p.then(f)], [p.catch(f)] and [p.finally(f)] at the moment [p]
    settles: the handler runs, and what it returns or throws settles the
    promise that the combinator returned. *)

Definition settle_with {A} (m : M A) : M (Settled A) :=
  fun w => match m w with
           | (Normal a, w') => (Normal (Fulfilled a), w')
           | (Throw e, w') => (Normal (Rejected e), w')
           end.

Definition then_ {A B} (p : Settled A) (f : A -> M B) : M (Settled B) :=
  match p with
  | Fulfilled a => settle_with (f a)
  | Rejected e => ret (Rejected e)
  end.

Definition catch_ {A} (p : Settled A) (f : JsError -> M A) : M (Settled A) :=
  match p with
  | Fulfilled a => ret (Fulfilled a)
  | Rejected e => settle_with (f e)
  end.

Definition finally_ {A} (p : Settled A) (f : M unit) : M (Settled A) :=
  r ← settle_with f;
  match r with
  | Fulfilled _ => ret p
  | Rejected e => ret (Rejected e)
  end.

Fixpoint for_each {A} (f : A -> M unit) (l : list A) : M unit :=
  match l with
  | [] => mret tt
  | a :: l' => f a;; for_each f l'
  end.

(** ** TokenStore *)

Definition onRefreshToken (callback : Callback) (s : TokenStore) : TokenStore :=
  {| options := options s; tokens := tokens s; _promise := _promise s;
     onTokensRefreshedCallback := Some callback |}.

Definition getTokens (s : TokenStore) : OAuth2ClientTokensWithExpiration :=
  tokens s.

Definition getRefreshToken (s : TokenStore) : string :=
  refresh_token (tokens s).

(** [Date.now() >= this.tokens.expires_at] *)
Definition accessTokenExpired (now : Z) (s : TokenStore) : bool :=
  (now >=? expires_at (tokens s))%Z.

Definition assign_tokens (t : OAuth2ClientTokensWithExpiration)
    (s : TokenStore) : TokenStore :=
  {| options := options s; tokens := t; _promise := _promise s;
     onTokensRefreshedCallback := onTokensRefreshedCallback s |}.

Definition assign_promise (p : option nat) (s : TokenStore) : TokenStore :=
  {| options := options s; tokens := tokens s; _promise := p;
     onTokensRefreshedCallback := onTokensRefreshedCallback s |}.

(** [scopes?.join(' ')] *)
Definition joined_scopes (o : OAuth2ClientOptions) : option string :=
  String.concat " " <$> scopes o.

Definition form_headers : list (string * string) :=
  [("Content-Type", "application/x-www-form-urlencoded")]%string.

Definition getNewAccessToken (o : OAuth2ClientOptions) (refreshToken : string)
    : AsyncPost OAuth2ClientTokensWithExpiration :=
  {| request :=
       {| url := tokenEndpoint o;
          body := RefreshBody refresh_token_grant refreshToken
                    (clientId o) (clientSecret o) (joined_scopes o);
          headers := form_headers |};
     resume := fun now posted =>
       match posted with
       | Rejected e => Rejected e
       | Fulfilled response =>
           Fulfilled
             {| inherited :=
                  {| refresh_token := refresh_token (data response);
                     token_type := token_type (data response);
                     expires_in := expires_in (data response);
                     scope := scope (data response);
                     access_token := access_token (data response) |};
                expires_at := (now + expires_in (data response) * 1000)%Z |}
       end |}.

(** [this.tokens = tokens; this.onTokensRefreshedCallback?.(tokens)] *)
Definition setTokens (t : OAuth2ClientTokensWithExpiration) : M unit :=
  modify (fun w => set_store (assign_tokens t (store w)) w);;
  emit (Assign t);;
  cb ← gets (fun w => onTokensRefreshedCallback (store w));
  match cb with
  | None => mret tt
  | Some callback =>
      emit (Notify (cb_name callback) t);;
      match cb_run callback t with
      | None => mret tt
      | Some e => throw e
      end
  end.

(** The rest of [getAccessToken] after [await this.refreshToken()]:
    [return this.tokens.access_token], or the rejection passed on. *)
Definition getAccessToken_resume (r : Settled unit) (caller : nat) : M unit :=
  match r with
  | Fulfilled _ =>
      t ← gets (fun w => access_token (tokens (store w)));
      emit (Deliver caller (Fulfilled t))
  | Rejected e => emit (Deliver caller (Rejected e))
  end.

(** [resolve()] and [reject(e)] of the promise [p] of [refreshToken]: the
    first call settles it and resumes its waiters in order, a later call
    does nothing. *)
Definition settle (p : nat) (r : Settled unit) : M unit :=
  st ← gets (fun w => promises w !! p);
  match st with
  | Some (Pending ws) =>
      modify (fun w => set_promises (<[p := Done r]> (promises w)) w);;
      emit (match r with
            | Fulfilled _ => Resolve p
            | Rejected e => Reject p e
            end);;
      for_each (getAccessToken_resume r) ws
  | _ => mret tt
  end.

Definition resolve (p : nat) : M unit := settle p (Fulfilled tt).
Definition reject (p : nat) (e : JsError) : M unit := settle p (Rejected e).

(** [await p] in [getAccessToken]. *)
Definition await (p : nat) (caller : nat) : M unit :=
  st ← gets (fun w => promises w !! p);
  match st with
  | Some (Pending ws) =>
      modify (fun w => set_promises (<[p := Pending (ws ++ [caller])]> (promises w)) w)
  | Some (Done r) => getAccessToken_resume r caller
  | None => mret tt
  end.

(** The call [axios.post(...)] of [getNewAccessToken], whose promise is
    consumed by the chain [att]. *)
Definition axios_post (a : AsyncPost OAuth2ClientTokensWithExpiration)
    (att : Attempt) : M unit :=
  id ← gets next_request;
  modify (fun w =>
    set_next_request (S id)
      (set_requests (<[id := {| awaiting := resume a; attempt := att |}]> (requests w)) w));;
  emit (Post id (request a)).

(** [setTimeout(() => { ...retry for p... }, delay)] *)
Definition setTimeout (now : Z) (p : nat) (delay : Z) : M unit :=
  id ← gets next_timer;
  modify (fun w =>
    set_next_timer (S id)
      (set_timers (<[id := ((now + delay)%Z, p)]> (timers w)) w));;
  emit (SetTimeout id delay).

Definition console_error (msg : string) : M unit := emit (ConsoleError msg).

(** [refreshToken], up to its [return]: the promise the caller awaits. *)
Definition refreshToken : M nat :=
  s ← gets store;
  match _promise s with
  | Some p => mret p
  | None =>
      p ← gets next_promise;
      modify (fun w =>
        set_next_promise (S p) (set_promises (<[p := Pending []]> (promises w)) w));;
      axios_post (getNewAccessToken (options s) (getRefreshToken s)) (FirstAttempt p);;
      modify (fun w => set_store (assign_promise (Some p) (store w)) w);;
      mret p
  end.

Definition getAccessToken (now : Z) (caller : nat) : M unit :=
  s ← gets store;
  if accessTokenExpired now s then
    p ← refreshToken;
    await p caller
  else
    emit (Deliver caller (Fulfilled (access_token (tokens s)))).

(** The chain [.then(...).catch(...).finally(...)] of lines 72-93, run when
    the promise [p1] of the first [getNewAccessToken] settles. *)
Definition first_attempt_settled (now : Z) (p : nat)
    (p1 : Settled OAuth2ClientTokensWithExpiration) : M (Settled unit) :=
  p2 ← then_ p1 (fun t => setTokens t;; resolve p);
  p3 ← catch_ p2 (fun _ =>
         console_error "Failed to refresh access token, trying again...";;
         setTimeout now p 1000%Z);
  finally_ p3
    (modify (fun w => set_store (assign_promise None (store w)) w);;
     emit Clear).

(** The callback given to [setTimeout], lines 80-89, up to the POST. *)
Definition retry (p : nat) : M unit :=
  s ← gets store;
  axios_post (getNewAccessToken (options s) (getRefreshToken s)) (RetryAttempt p).

(** The chain [.then(...).catch(...)] of lines 81-88, run when the promise
    [p1] of the second [getNewAccessToken] settles. *)
Definition retry_attempt_settled (p : nat)
    (p1 : Settled OAuth2ClientTokensWithExpiration) : M (Settled unit) :=
  p2 ← then_ p1 (fun t => setTokens t;; resolve p);
  catch_ p2 (fun _ => reject p (Error "Failed to refresh access token")).

(** ** Tasks *)

Inductive event :=
| onRefreshToken_called (callback : Callback)
| getAccessToken_called (caller : nat)
| post_settled (id : nat) (r : Settled AxiosResponse)
| timer_fired (id : nat).

Definition run_task {A} (m : M A) (w : World) : World := snd (m w).

(** One task at clock reading [now]; [None] when the event cannot happen
    (no such pending POST, no such timer, or the timer is not due). *)
Definition step (now : Z) (ev : event) (w : World) : option World :=
  match ev with
  | onRefreshToken_called callback =>
      Some (set_store (onRefreshToken callback (store w)) w)
  | getAccessToken_called caller =>
      Some (run_task (getAccessToken now caller) w)
  | post_settled id r =>
      pp ← requests w !! id;
      let w' := set_requests (delete id (requests w)) w in
      let p1 := awaiting pp now r in
      Some (match attempt pp with
            | FirstAttempt p => run_task (first_attempt_settled now p p1) w'
            | RetryAttempt p => run_task (retry_attempt_settled p p1) w'
            end)
  | timer_fired id =>
      '(due, p) ← timers w !! id;
      if (due <=? now)%Z
      then Some (run_task (retry p) (set_timers (delete id (timers w)) w))
      else None
  end.

Fixpoint run (evs : list (Z * event)) (w : World) : option World :=
  match evs with
  | [] => Some w
  | (now, ev) :: evs' => w' ← step now ev w; run evs' w'
  end.

(** ** OAuth2Client *)

Definition login (o : OAuth2ClientOptions) (clientOptions : ClientOptions)
    : AsyncPost TokenStore :=
  {| request :=
       {| url := tokenEndpoint o;
          body := GrantBody clientOptions;
          headers := form_headers |};
     resume := fun now posted =>
       match posted with
       | Rejected e => Rejected e
       | Fulfilled response =>
           Fulfilled
             (new_TokenStore o
                {| inherited := data response;
                   expires_at := (now + expires_in (data response) * 1000)%Z |})
       end |}.

Definition loginPassword (o : OAuth2ClientOptions) (user pass : string)
    : AsyncPost TokenStore :=
  login o
    {| grant_type := password;
       username := Some user;
       password_ := Some pass;
       code := None;
       state := None;
       client_id := clientId o;
       client_secret := clientSecret o;
       scope_ := joined_scopes o |}.

Definition loginAuthorization (o : OAuth2ClientOptions) (code_ state_ : string)
    (grantType : GrantType) : AsyncPost TokenStore :=
  login o
    {| grant_type := grantType;
       code := Some code_;
       state := Some state_;
       username := None;
       password_ := None;
       client_id := clientId o;
       client_secret := clientSecret o;
       scope_ := joined_scopes o |}.

(** ** Reachable worlds *)

Inductive reachable : World -> Prop :=
| reachable_new o t :
    reachable (initial_World (new_TokenStore o t))
| reachable_step w now ev w' :
    reachable w -> step now ev w = Some w' -> reachable w'.

(** ** Reading the trace *)

Definition is_Post (e : effect) : bool :=
  match e with Post _ _ => true | _ => false end.
Definition is_Notify (e : effect) : bool :=
  match e with Notify _ _ => true | _ => false end.
Definition is_Deliver (e : effect) : bool :=
  match e with Deliver _ _ => true | _ => false end.

Definition count (f : effect -> bool) (t : list effect) : nat :=
  length (List.filter f t).

(** What [setTokens t] adds to the trace for the callback slot [cb]. *)
Definition notified (cb : option Callback)
    (t : OAuth2ClientTokensWithExpiration) : list effect :=
  match cb with
  | None => []
  | Some callback => [Notify (cb_name callback) t]
  end.

(** Whether the callback in slot [cb] throws on [t]. *)
Definition thrown (cb : option Callback)
    (t : OAuth2ClientTokensWithExpiration) : option JsError :=
  match cb with
  | None => None
  | Some callback => cb_run callback t
  end.

(** The tasks in which the callers [cs] call [getAccessToken], each at its
    own clock reading. *)
Definition calls (cs : list (Z * nat)) : list (Z * event) :=
  (fun c => (fst c, getAccessToken_called (snd c))) <$> cs.

(** The token set that [getNewAccessToken] builds from a response
    received at [now]. *)
Definition refreshed (now : Z) (response : AxiosResponse)
    : OAuth2ClientTokensWithExpiration :=
  {| inherited :=
       {| refresh_token := refresh_token (data response);
          token_type := token_type (data response);
          expires_in := expires_in (data response);
          scope := scope (data response);
          access_token := access_token (data response) |};
     expires_at := (now + expires_in (data response) * 1000)%Z |}.

(** What [getAccessToken] hands to a caller that waited on a promise
    settled with [r], when the store is [s] at that moment. *)
Definition delivered (r : Settled unit) (s : TokenStore) : Settled string :=
  match r with
  | Fulfilled _ => Fulfilled (access_token (tokens s))
  | Rejected e => Rejected e
  end.

Definition settled_effect (p : nat) (r : Settled unit) : effect :=
  match r with
  | Fulfilled _ => Resolve p
  | Rejected e => Reject p e
  end.

Definition retry_failed : JsError := Error "Failed to refresh access token".

(** The world after the [catch] and [finally] handlers of the first chain
    have run from [w]. *)
Definition retry_scheduled (now : Z) (p : nat) (w : World) : World :=
  {| store := assign_promise None (store w);
     promises := promises w;
     requests := requests w;
     timers := <[next_timer w := ((now + 1000)%Z, p)]> (timers w);
     next_promise := next_promise w;
     next_request := next_request w;
     next_timer := S (next_timer w);
     trace :=
       trace w ++
       [ConsoleError "Failed to refresh access token, trying again...";
        SetTimeout (next_timer w) 1000%Z; Clear] |}.

(** ** One refresh operation, stage by stage

    [w] is the world in which the first caller finds the token expired
    and no refresh in progress; [callers] are the callers suspended on the
    promise that [refreshToken] then creates.  The first attempt enters
    the [catch] handler in one of two ways, told apart by [first]: its POST
    was rejected ([None]), or its POST was fulfilled and the callback threw
    on the token set [t] that [setTokens] had just stored ([Some t]). *)

Definition first_post (w : World) : AsyncPost OAuth2ClientTokensWithExpiration :=
  getNewAccessToken (options (store w)) (getRefreshToken (store w)).

Definition store_after (first : option OAuth2ClientTokensWithExpiration)
    (s : TokenStore) : TokenStore :=
  match first with
  | None => s
  | Some t => assign_tokens t s
  end.

Definition trace_after (first : option OAuth2ClientTokensWithExpiration)
    (s : TokenStore) : list effect :=
  match first with
  | None => []
  | Some t => Assign t :: notified (onTokensRefreshedCallback s) t
  end.

Definition retry_post (first : option OAuth2ClientTokensWithExpiration)
    (w : World) : AsyncPost OAuth2ClientTokensWithExpiration :=
  getNewAccessToken (options (store w))
    (getRefreshToken (store_after first (store w))).

(** The first POST is in flight. *)
Definition waiting (w : World) (callers : list nat) : World :=
  {| store := assign_promise (Some (next_promise w)) (store w);
     promises := <[next_promise w := Pending callers]> (promises w);
     requests :=
       <[next_request w :=
           {| awaiting := resume (first_post w);
              attempt := FirstAttempt (next_promise w) |}]> (requests w);
     timers := timers w;
     next_promise := S (next_promise w);
     next_request := S (next_request w);
     next_timer := next_timer w;
     trace := trace w ++ [Post (next_request w) (request (first_post w))] |}.

(** The first attempt failed at [failed_at]; the timer is running. *)
Definition delayed (failed_at : Z)
    (first : option OAuth2ClientTokensWithExpiration)
    (w : World) (callers : list nat) : World :=
  {| store := assign_promise None (store_after first (store w));
     promises := <[next_promise w := Pending callers]> (promises w);
     requests := delete (next_request w) (requests w);
     timers := <[next_timer w := ((failed_at + 1000)%Z, next_promise w)]> (timers w);
     next_promise := S (next_promise w);
     next_request := S (next_request w);
     next_timer := S (next_timer w);
     trace :=
       trace w ++
       Post (next_request w) (request (first_post w)) ::
       trace_after first (store w) ++
       [ConsoleError "Failed to refresh access token, trying again...";
        SetTimeout (next_timer w) 1000%Z;
        Clear] |}.

(** The timer has fired; the second POST is in flight. *)
Definition retrying (first : option OAuth2ClientTokensWithExpiration)
    (w : World) (callers : list nat) : World :=
  {| store := assign_promise None (store_after first (store w));
     promises := <[next_promise w := Pending callers]> (promises w);
     requests :=
       <[S (next_request w) :=
           {| awaiting := resume (retry_post first w);
              attempt := RetryAttempt (next_promise w) |}]>
         (delete (next_request w) (requests w));
     timers := delete (next_timer w) (timers w);
     next_promise := S (next_promise w);
     next_request := S (S (next_request w));
     next_timer := S (next_timer w);
     trace :=
       trace w ++
       Post (next_request w) (request (first_post w)) ::
       trace_after first (store w) ++
       [ConsoleError "Failed to refresh access token, trying again...";
        SetTimeout (next_timer w) 1000%Z;
        Clear;
        Post (S (next_request w)) (request (retry_post first w))] |}.

(** How the promise of the operation is settled by the retry whose POST
    settled with [r] at [now], the callback slot being [cb]. *)
Definition retry_outcome (cb : option Callback) (now : Z)
    (r : Settled AxiosResponse) : Settled unit :=
  match r with
  | Rejected _ => Rejected retry_failed
  | Fulfilled response =>
      match thrown cb (refreshed now response) with
      | None => Fulfilled tt
      | Some _ => Rejected retry_failed
      end
  end.

(** The store and the trace after the [then] handler of an attempt whose
    POST settled with [r] at [now]. *)
Definition store_then (now : Z) (r : Settled AxiosResponse)
    (s : TokenStore) : TokenStore :=
  match r with
  | Rejected _ => s
  | Fulfilled response => assign_tokens (refreshed now response) s
  end.

Definition trace_then (now : Z) (r : Settled AxiosResponse)
    (s : TokenStore) : list effect :=
  match r with
  | Rejected _ => []
  | Fulfilled response =>
      Assign (refreshed now response) ::
      notified (onTokensRefreshedCallback s) (refreshed now response)
  end.

(** The retry has settled: the operation is over. *)
Definition finished (first : option OAuth2ClientTokensWithExpiration)
    (now : Z) (r : Settled AxiosResponse)
    (w : World) (callers : list nat) : World :=
  let out := retry_outcome (onTokensRefreshedCallback (store w)) now r in
  let s := store_then now r (assign_promise None (store_after first (store w))) in
  {| store := s;
     promises := <[next_promise w := Done out]> (promises w);
     requests := delete (S (next_request w)) (delete (next_request w) (requests w));
     timers := delete (next_timer w) (timers w);
     next_promise := S (next_promise w);
     next_request := S (S (next_request w));
     next_timer := S (next_timer w);
     trace :=
       trace (retrying first w callers) ++
       trace_then now r (store w) ++
       settled_effect (next_promise w) out ::
       ((fun c => Deliver c (delivered out s)) <$> callers) |}.

(** The first attempt succeeded: the operation is over. *)
Definition refreshed_at_once (now : Z) (response : AxiosResponse)
    (w : World) (callers : list nat) : World :=
  {| store := assign_promise None (assign_tokens (refreshed now response) (store w));
     promises := <[next_promise w := Done (Fulfilled tt)]> (promises w);
     requests := delete (next_request w) (requests w);
     timers := timers w;
     next_promise := S (next_promise w);
     next_request := S (next_request w);
     next_timer := next_timer w;
     trace :=
       trace w ++
       Post (next_request w) (request (first_post w)) ::
       Assign (refreshed now response) ::
       notified (onTokensRefreshedCallback (store w)) (refreshed now response) ++
       Resolve (next_promise w) ::
       ((fun c => Deliver c (Fulfilled (access_token (data response)))) <$> callers) ++
       [Clear] |}.

Definition all_expired (w : World) (cs : list (Z * nat)) : Prop :=
  Forall (fun c => (expires_at (tokens (store w)) <= fst c)%Z) cs.

(** ** What holds of every reachable world *)

Definition promise_of (a : Attempt) : nat :=
  match a with
  | FirstAttempt p => p
  | RetryAttempt p => p
  end.

Record consistent (w : World) : Prop := {
  marker_pending : forall p,
    _promise (store w) = Some p -> exists ws, promises w !! p = Some (Pending ws);
  retry_unmarked : forall id pp p,
    requests w !! id = Some pp -> attempt pp = RetryAttempt p ->
    _promise (store w) <> Some p;
  timer_unmarked : forall id due p,
    timers w !! id = Some (due, p) -> _promise (store w) <> Some p;
  first_marked : forall id pp p,
    requests w !! id = Some pp -> attempt pp = FirstAttempt p ->
    _promise (store w) = Some p;
  first_unique : forall id id' pp pp' p p',
    requests w !! id = Some pp -> attempt pp = FirstAttempt p ->
    requests w !! id' = Some pp' -> attempt pp' = FirstAttempt p' ->
    id = id';
  request_bound : forall id pp,
    requests w !! id = Some pp -> promise_of (attempt pp) < next_promise w;
  timer_bound : forall id due p,
    timers w !! id = Some (due, p) -> p < next_promise w;
  request_awaits : forall id pp,
    requests w !! id = Some pp ->
    exists o token, awaiting pp = resume (getNewAccessToken o token);
}.

(** Whether the first chain enters its [catch] handler when its POST
    settles with [r] at [now], and if so what [setTokens] had stored. *)
Definition first_failure (cb : option Callback) (now : Z)
    (r : Settled AxiosResponse)
    : option (option OAuth2ClientTokensWithExpiration) :=
  match r with
  | Rejected _ => Some None
  | Fulfilled response =>
      match thrown cb (refreshed now response) with
      | Some _ => Some (Some (refreshed now response))
      | None => None
      end
  end.

(** ** A concrete store

    The scenario of the specification: a token set with [expires_in] 3600
    obtained by a password grant completed at time 0. *)

Definition example_options : OAuth2ClientOptions :=
  {| clientId := "app"; clientSecret := "secret";
     tokenEndpoint := "https://auth.example/token";
     scopes := Some ["read"; "write"]%string |}.

Definition example_response (access refresh_ : string) : AxiosResponse :=
  {| data := {| access_token := access; expires_in := 3600%Z;
                refresh_token := refresh_; scope := "read write";
                token_type := "Bearer" |} |}.

Definition example_store : TokenStore :=
  new_TokenStore example_options
    {| inherited := data (example_response "a1" "r1");
       expires_at := 3600000%Z |}.

Definition example_world : World := initial_World example_store.

Definition quiet_callback : Callback :=
  {| cb_name := "persist"; cb_run := fun _ => None |}.

Definition throwing_callback : Callback :=
  {| cb_name := "failing"; cb_run := fun _ => Some (Error "quota exceeded") |}.


(** The concrete store after [onRefreshToken(callback)]. *)
Definition watched_world (callback : Callback) : World :=
  set_store (onRefreshToken callback example_store) example_world.

(** ** Tasks, case by case

    The world that [settle p r] leaves: a pending promise is settled and
    its waiters are resumed in order; a settled one is left alone. *)
Definition settled (p : nat) (r : Settled unit) (w : World) : World :=
  match promises w !! p with
  | Some (Pending ws) =>
      set_trace
        (trace w ++ settled_effect p r ::
           ((fun c => Deliver c (delivered r (store w))) <$> ws))
        (set_promises (<[p := Done r]> (promises w)) w)
  | _ => w
  end.

(** The world after the [then] handler [setTokens(tokens)] of an attempt
    whose POST settled with [r] at [now], up to the throw of the callback. *)
Definition stored (now : Z) (r : Settled AxiosResponse) (w : World) : World :=
  set_trace (trace w ++ trace_then now r (store w))
    (set_store (store_then now r (store w)) w).

(** The world after [this._promise = null]. *)
Definition cleared (w : World) : World :=
  set_trace (trace w ++ [Clear]) (set_store (assign_promise None (store w)) w).

(** What [settle p r] adds to the trace of [w]. *)
Definition settling (p : nat) (r : Settled unit) (w : World) : list effect :=
  match promises w !! p with
  | Some (Pending ws) =>
      settled_effect p r :: ((fun c => Deliver c (delivered r (store w))) <$> ws)
  | _ => []
  end.

(** What one task does to a world, by the kind of task. *)
Inductive task (now : Z) (w : World) : event -> World -> Prop :=
| task_register callback :
    task now w (onRefreshToken_called callback)
      (set_store (onRefreshToken callback (store w)) w)
| task_cached caller :
    accessTokenExpired now (store w) = false ->
    task now w (getAccessToken_called caller)
      (set_trace
         (trace w ++ [Deliver caller (Fulfilled (access_token (tokens (store w))))])
         w)
| task_joins caller p ws :
    accessTokenExpired now (store w) = true ->
    _promise (store w) = Some p ->
    promises w !! p = Some (Pending ws) ->
    task now w (getAccessToken_called caller)
      (set_promises (<[p := Pending (ws ++ [caller])]> (promises w)) w)
| task_starts caller :
    accessTokenExpired now (store w) = true ->
    _promise (store w) = None ->
    task now w (getAccessToken_called caller) (waiting w [caller])
| task_first_fails id pp p r first :
    requests w !! id = Some pp ->
    attempt pp = FirstAttempt p ->
    first_failure (onTokensRefreshedCallback (store w)) now r = Some first ->
    task now w (post_settled id r)
      (retry_scheduled now p
         (stored now r (set_requests (delete id (requests w)) w)))
| task_first_succeeds id pp p response :
    requests w !! id = Some pp ->
    attempt pp = FirstAttempt p ->
    thrown (onTokensRefreshedCallback (store w)) (refreshed now response) = None ->
    task now w (post_settled id (Fulfilled response))
      (cleared
         (settled p (Fulfilled tt)
            (stored now (Fulfilled response)
               (set_requests (delete id (requests w)) w))))
| task_retry_settles id pp p r :
    requests w !! id = Some pp ->
    attempt pp = RetryAttempt p ->
    task now w (post_settled id r)
      (settled p (retry_outcome (onTokensRefreshedCallback (store w)) now r)
         (stored now r (set_requests (delete id (requests w)) w)))
| task_timer id due p :
    timers w !! id = Some (due, p) ->
    (due <= now)%Z ->
    task now w (timer_fired id)
      (set_trace
         (trace w ++ [Post (next_request w) (request (first_post w))])
         (set_next_request (S (next_request w))
            (set_requests
               (<[next_request w :=
                    {| awaiting := resume (first_post w);
                       attempt := RetryAttempt p |}]> (requests w))
               (set_timers (delete id (timers w)) w)))).

(** More that holds of every reachable world: identifiers are fresh, the
    marker stands for a first attempt in flight, and a promise is pending
    for as long as the one POST or timer of its operation is outstanding. *)
Record orderly (w : World) : Prop := {
  promise_fresh : forall p st,
    promises w !! p = Some st -> p < next_promise w;
  request_fresh : forall id pp,
    requests w !! id = Some pp -> id < next_request w;
  timer_fresh : forall id d,
    timers w !! id = Some d -> id < next_timer w;
  marker_first : forall p,
    _promise (store w) = Some p ->
    exists id pp, requests w !! id = Some pp /\ attempt pp = FirstAttempt p;
  request_pending : forall id pp,
    requests w !! id = Some pp ->
    exists ws, promises w !! promise_of (attempt pp) = Some (Pending ws);
  timer_pending : forall id due p,
    timers w !! id = Some (due, p) ->
    exists ws, promises w !! p = Some (Pending ws);
  one_request : forall id id' pp pp',
    requests w !! id = Some pp -> requests w !! id' = Some pp' ->
    promise_of (attempt pp) = promise_of (attempt pp') -> id = id';
  one_timer : forall id id' due due' p,
    timers w !! id = Some (due, p) -> timers w !! id' = Some (due', p) ->
    id = id';
  request_xor_timer : forall id pp t due p,
    requests w !! id = Some pp -> timers w !! t = Some (due, p) ->
    promise_of (attempt pp) <> p;
}.

(** ** Counting callers *)

Definition is_call (ev : Z * event) : bool :=
  match snd ev with getAccessToken_called _ => true | _ => false end.

(** How many times [getAccessToken] is called in a run. *)
Definition asked (evs : list (Z * event)) : nat :=
  length (List.filter is_call evs).

(** ** Counting callers, one by one

    [among] picks the callers that are counted: one caller
    ([Nat.eqb caller]), a set of callers, or all of them. *)

Definition is_call_of (among : nat -> bool) (ev : Z * event) : bool :=
  match snd ev with getAccessToken_called caller => among caller | _ => false end.

(** How many times the callers picked by [among] call [getAccessToken] in
    a run. *)
Definition asked_of (among : nat -> bool) (evs : list (Z * event)) : nat :=
  length (List.filter (is_call_of among) evs).

(** An outcome handed to one of the callers picked by [among]. *)
Definition is_Deliver_to (among : nat -> bool) (e : effect) : bool :=
  match e with Deliver caller _ => among caller | _ => false end.

Definition waiters_among (among : nat -> bool) (st : PromiseState) : nat :=
  match st with
  | Pending ws => length (List.filter among ws)
  | Done _ => 0
  end.

(** How many times the callers picked by [among] are suspended on a
    pending promise. *)
Definition suspended_among (among : nat -> bool) (w : World) : nat :=
  map_fold (fun _ st n => waiters_among among st + n) 0 (promises w).

(** ** The version of the store without retry

    The second [TokenStore] and [OAuth2Client] of [index.ts] (after the
    separator): [refreshToken] posts inline, and its [catch] handler
    rejects at once. *)
Module Sibling.

(** [{ ...data, expires_at: Date.now() + data.expires_in * 1000 }] *)
Definition spread (now : Z) (response : AxiosResponse)
    : OAuth2ClientTokensWithExpiration :=
  {| inherited := data response;
     expires_at := (now + expires_in (data response) * 1000)%Z |}.

(** The POST of [refreshToken]. *)
Definition refresh_post (s : TokenStore)
    : AsyncPost OAuth2ClientTokensWithExpiration :=
  {| request :=
       {| url := tokenEndpoint (options s);
          body := RefreshBody refresh_token_grant (refresh_token (tokens s))
                    (clientId (options s)) (clientSecret (options s))
                    (joined_scopes (options s));
          headers := form_headers |};
     resume := fun now posted =>
       match posted with
       | Fulfilled response => Fulfilled (spread now response)
       | Rejected e => Rejected e
       end |}.

Definition refreshToken : M nat :=
  s ← gets store;
  match _promise s with
  | Some p => mret p
  | None =>
      p ← gets next_promise;
      modify (fun w =>
        set_next_promise (S p) (set_promises (<[p := Pending []]> (promises w)) w));;
      axios_post (refresh_post s) (FirstAttempt p);;
      modify (fun w => set_store (assign_promise (Some p) (store w)) w);;
      mret p
  end.

Definition getAccessToken (now : Z) (caller : nat) : M unit :=
  s ← gets store;
  if accessTokenExpired now s then
    p ← refreshToken;
    await p caller
  else
    emit (Deliver caller (Fulfilled (access_token (tokens s)))).

(** [reject(e)] called inside the [catch] handler of [refreshToken]: the
    promise is settled at once, but the callers suspended in
    [await this.refreshToken()] are resumed by reactions that are queued
    behind the [finally] reaction of the chain (the handler of [catch]
    returns one reaction before they are queued).  The waiters are
    returned, to be resumed after the [finally] handler.  On the other
    path, [resolve()] is called inside the [then] handler, one reaction
    earlier in the chain, and the waiters are resumed before the [finally]
    handler runs, as [resolve] has it. *)
Definition reject_queued (p : nat) (e : JsError) : M (list nat) :=
  st ← gets (fun w => promises w !! p);
  match st with
  | Some (Pending ws) =>
      modify (fun w => set_promises (<[p := Done (Rejected e)]> (promises w)) w);;
      emit (Reject p e);;
      mret ws
  | _ => mret []
  end.

(** The chain [.then(...).catch(...).finally(...)] of [refreshToken], run
    when the POST settles; the two statements that store the new set and
    call the callback are those of [setTokens].  The value passed along
    the chain is the list of waiters still to be resumed, which are
    resumed, with the rejection, when the chain has run. *)
Definition attempt_settled (now : Z) (p : nat)
    (posted : Settled AxiosResponse) : M unit :=
  p2 ← then_ posted (fun response =>
         setTokens (spread now response);;
         resolve p;;
         mret []);
  p3 ← catch_ p2 (fun _ =>
         reject_queued p (Error "Failed to refresh access token"));
  p4 ← finally_ p3
         (modify (fun w => set_store (assign_promise None (store w)) w);;
          emit Clear);
  match p4 with
  | Fulfilled queued =>
      for_each
        (getAccessToken_resume (Rejected (Error "Failed to refresh access token")))
        queued
  | Rejected _ => mret tt
  end.

(** One task of this version; it never starts a timer. *)
Definition step (now : Z) (ev : event) (w : World) : option World :=
  match ev with
  | onRefreshToken_called callback =>
      Some (set_store (onRefreshToken callback (store w)) w)
  | getAccessToken_called caller =>
      Some (run_task (getAccessToken now caller) w)
  | post_settled id r =>
      pp ← requests w !! id;
      Some (run_task (attempt_settled now (promise_of (attempt pp)) r)
              (set_requests (delete id (requests w)) w))
  | timer_fired _ => None
  end.

Fixpoint run (evs : list (Z * event)) (w : World) : option World :=
  match evs with
  | [] => Some w
  | (now, ev) :: evs' => w' ← step now ev w; run evs' w'
  end.

(** [login(username, password)] *)
Definition login (o : OAuth2ClientOptions) (user pass : string)
    : AsyncPost TokenStore :=
  {| request :=
       {| url := tokenEndpoint o;
          body :=
            GrantBody
              {| grant_type := password;
                 username := Some user;
                 password_ := Some pass;
                 code := None;
                 state := None;
                 client_id := clientId o;
                 client_secret := clientSecret o;
                 scope_ := joined_scopes o |};
          headers := form_headers |};
     resume := fun now posted =>
       match posted with
       | Rejected e => Rejected e
       | Fulfilled response => Fulfilled (new_TokenStore o (spread now response))
       end |}.

(** The first POST is in flight, in this version. *)
Definition waiting (w : World) (callers : list nat) : World :=
  {| store := assign_promise (Some (next_promise w)) (store w);
     promises := <[next_promise w := Pending callers]> (promises w);
     requests :=
       <[next_request w :=
           {| awaiting := resume (refresh_post (store w));
              attempt := FirstAttempt (next_promise w) |}]> (requests w);
     timers := timers w;
     next_promise := S (next_promise w);
     next_request := S (next_request w);
     next_timer := next_timer w;
     trace :=
       trace w ++ [Post (next_request w) (request (refresh_post (store w)))] |}.

End Sibling.

(** ** The grants as tasks

    [loginPassword] and [loginAuthorization] of [OAuth2Client] at the
    granularity of tasks: the call sends the POST of [login] and suspends
    the caller in [await]; the settlement of the POST resumes [login],
    which returns the new [TokenStore] or, there being no [try] around
    the [await], throws what the POST was rejected with. *)
Module Grants.

Inductive effect :=
| Posted (id : nat) (request : PostRequest)
| Returned (caller : nat) (s : TokenStore)
| Threw (caller : nat) (e : JsError).

Inductive event :=
| loginPassword_called (user pass : string) (caller : nat)
| loginAuthorization_called (code_ state_ : string) (grantType : GrantType)
    (caller : nat)
| grant_settled (id : nat) (r : Settled AxiosResponse).

(** The calls of [login] suspended in [await], by the identifier of
    their POST, each with its caller. *)
Record Client := {
  pending : gmap nat (nat * AsyncPost TokenStore);
  next_post : nat;
  log : list effect;
}.

Definition new_Client : Client :=
  {| pending := ∅; next_post := 0; log := [] |}.

(** [login], up to its [await]. *)
Definition called (a : AsyncPost TokenStore) (caller : nat) (g : Client) : Client :=
  {| pending := <[next_post g := (caller, a)]> (pending g);
     next_post := S (next_post g);
     log := log g ++ [Posted (next_post g) (request a)] |}.

(** [login], from its [await] on. *)
Definition resumed (now : Z) (caller : nat) (a : AsyncPost TokenStore)
    (r : Settled AxiosResponse) : effect :=
  match resume a now r with
  | Fulfilled s => Returned caller s
  | Rejected e => Threw caller e
  end.

Definition step (o : OAuth2ClientOptions) (now : Z) (ev : event) (g : Client)
    : option Client :=
  match ev with
  | loginPassword_called user pass caller =>
      Some (called (loginPassword o user pass) caller g)
  | loginAuthorization_called code_ state_ grantType caller =>
      Some (called (loginAuthorization o code_ state_ grantType) caller g)
  | grant_settled id r =>
      '(caller, a) ← pending g !! id;
      Some {| pending := delete id (pending g);
              next_post := next_post g;
              log := log g ++ [resumed now caller a r] |}
  end.

Fixpoint run (o : OAuth2ClientOptions) (evs : list (Z * event)) (g : Client)
    : option Client :=
  match evs with
  | [] => Some g
  | (now, ev) :: evs' => g' ← step o now ev g; run o evs' g'
  end.

(** Reading a run and its log. *)
Definition logins (evs : list (Z * event)) : nat :=
  length
    (List.filter
       (fun ev => match snd ev with grant_settled _ _ => false | _ => true end)
       evs).

Fixpoint rejections (evs : list (Z * event)) : list JsError :=
  match evs with
  | [] => []
  | (_, grant_settled _ (Rejected e)) :: evs' => e :: rejections evs'
  | _ :: evs' => rejections evs'
  end.

Definition fulfilments (evs : list (Z * event)) : nat :=
  length
    (List.filter
       (fun ev =>
          match snd ev with grant_settled _ (Fulfilled _) => true | _ => false end)
       evs).

Definition posted (l : list effect) : nat :=
  length (List.filter (fun e => match e with Posted _ _ => true | _ => false end) l).

Definition returned (l : list effect) : nat :=
  length (List.filter (fun e => match e with Returned _ _ => true | _ => false end) l).

Fixpoint thrown (l : list effect) : list JsError :=
  match l with
  | [] => []
  | Threw _ e :: l' => e :: thrown l'
  | _ :: l' => thrown l'
  end.

(** Every suspended call is a call of [login] with the options [o]. *)
Definition logins_only (o : OAuth2ClientOptions) (g : Client) : Prop :=
  forall id caller a,
    pending g !! id = Some (caller, a) ->
    exists clientOptions, a = login o clientOptions.

End Grants.

(** * Properties *)

Ltac run_m :=
  unfold run_task, mbind, M_bind, bind, mret, M_ret, ret, gets, modify, throw;
  cbn.

(** Two descriptions of the same world, up to the nesting of the trace. *)
Ltac same_world :=
  unfold set_store, set_promises, set_requests, set_timers, set_next_promise,
    set_next_request, set_next_timer, set_trace;
  cbn; rewrite <- ?app_assoc; cbn; rewrite <- ?app_assoc; cbn;
  try reflexivity.

Section Steps.

Variable w : World.
Variable now : Z.

Lemma expired_iff s : accessTokenExpired now s = true <-> (expires_at (tokens s) <= now)%Z.
Proof. unfold accessTokenExpired. rewrite Z.geb_le. reflexivity. Qed.

Lemma not_expired_iff s : accessTokenExpired now s = false <-> (now < expires_at (tokens s))%Z.
Proof.
  unfold accessTokenExpired. rewrite Z.geb_leb, Z.leb_gt. reflexivity.
Qed.

Lemma call_cached caller :
  accessTokenExpired now (store w) = false ->
  step now (getAccessToken_called caller) w =
  Some (set_trace
          (trace w ++ [Deliver caller (Fulfilled (access_token (tokens (store w))))])
          w).
Proof.
  intros E. unfold step, getAccessToken, emit. run_m. rewrite E. reflexivity.
Qed.

Lemma call_starts caller :
  accessTokenExpired now (store w) = true ->
  _promise (store w) = None ->
  step now (getAccessToken_called caller) w =
  Some {| store := assign_promise (Some (next_promise w)) (store w);
          promises := <[next_promise w := Pending [caller]]> (promises w);
          requests :=
            <[next_request w :=
                {| awaiting :=
                     resume (getNewAccessToken (options (store w))
                               (getRefreshToken (store w)));
                   attempt := FirstAttempt (next_promise w) |}]> (requests w);
          timers := timers w;
          next_promise := S (next_promise w);
          next_request := S (next_request w);
          next_timer := next_timer w;
          trace :=
            trace w ++
            [Post (next_request w)
               (request (getNewAccessToken (options (store w))
                           (getRefreshToken (store w))))] |}.
Proof.
  intros E N.
  unfold step, getAccessToken, refreshToken, await, axios_post, emit. run_m.
  rewrite E. cbn. rewrite N. cbn.
  rewrite lookup_insert_eq. cbn. rewrite insert_insert_eq. reflexivity.
Qed.

Lemma call_joins caller p ws :
  accessTokenExpired now (store w) = true ->
  _promise (store w) = Some p ->
  promises w !! p = Some (Pending ws) ->
  step now (getAccessToken_called caller) w =
  Some (set_promises (<[p := Pending (ws ++ [caller])]> (promises w)) w).
Proof.
  intros E N L.
  unfold step, getAccessToken, refreshToken, await. run_m.
  rewrite E. cbn. rewrite N. cbn. rewrite L. reflexivity.
Qed.

End Steps.

Section Handlers.

Lemma set_trace_id w : set_trace (trace w) w = w.
Proof. destruct w; reflexivity. Qed.

Lemma resume_all r ws w :
  for_each (getAccessToken_resume r) ws w =
  (Normal tt,
   set_trace (trace w ++ ((fun c => Deliver c (delivered r (store w))) <$> ws)) w).
Proof.
  revert w. induction ws as [|c ws IH]; intros w.
  - cbn. rewrite app_nil_r, set_trace_id. reflexivity.
  - cbn [for_each]. unfold mbind, M_bind, bind.
    assert (getAccessToken_resume r c w =
            (Normal tt, set_trace (trace w ++ [Deliver c (delivered r (store w))]) w)) as ->.
    { destruct r; reflexivity. }
    rewrite IH. cbn. rewrite <- app_assoc. reflexivity.
Qed.

Lemma settle_pending p r ws w :
  promises w !! p = Some (Pending ws) ->
  settle p r w =
  (Normal tt,
   set_trace
     (trace w ++ settled_effect p r ::
        ((fun c => Deliver c (delivered r (store w))) <$> ws))
     (set_promises (<[p := Done r]> (promises w)) w)).
Proof.
  intros L. unfold settle, emit. run_m. rewrite L. cbn.
  unfold mbind, M_bind, bind. cbn. rewrite resume_all. cbn.
  rewrite <- app_assoc. destruct r; reflexivity.
Qed.

Lemma settle_done p r r' w :
  promises w !! p = Some (Done r') -> settle p r w = (Normal tt, w).
Proof. intros L. unfold settle. run_m. rewrite L. reflexivity. Qed.

Lemma settle_absent p r w :
  promises w !! p = None -> settle p r w = (Normal tt, w).
Proof. intros L. unfold settle. run_m. rewrite L. reflexivity. Qed.

Lemma setTokens_runs t w :
  setTokens t w =
  (match thrown (onTokensRefreshedCallback (store w)) t with
   | None => Normal tt
   | Some e => Throw e
   end,
   set_trace
     (trace w ++ Assign t :: notified (onTokensRefreshedCallback (store w)) t)
     (set_store (assign_tokens t (store w)) w)).
Proof.
  unfold setTokens, emit. run_m.
  destruct (onTokensRefreshedCallback (store w)) as [cb|]; cbn.
  - destruct (cb_run cb t); cbn; rewrite <- app_assoc; reflexivity.
  - reflexivity.
Qed.

End Handlers.

Section Chains.

Variable w : World.
Variable now : Z.
Variable p : nat.

Lemma first_attempt_rejected e :
  run_task (first_attempt_settled now p (Rejected e)) w = retry_scheduled now p w.
Proof.
  unfold first_attempt_settled, then_, catch_, finally_, settle_with,
    console_error, setTimeout, emit. run_m.
  unfold retry_scheduled. same_world.
Qed.

Lemma first_attempt_callback_throws t e :
  thrown (onTokensRefreshedCallback (store w)) t = Some e ->
  run_task (first_attempt_settled now p (Fulfilled t)) w =
  retry_scheduled now p
    (set_trace (trace w ++ Assign t :: notified (onTokensRefreshedCallback (store w)) t)
       (set_store (assign_tokens t (store w)) w)).
Proof.
  intros T.
  unfold first_attempt_settled, then_, catch_, finally_, settle_with,
    console_error, setTimeout, emit. run_m.
  rewrite setTokens_runs. rewrite T.
  unfold retry_scheduled. same_world.
Qed.

Lemma first_attempt_fulfilled t ws :
  thrown (onTokensRefreshedCallback (store w)) t = None ->
  promises w !! p = Some (Pending ws) ->
  run_task (first_attempt_settled now p (Fulfilled t)) w =
  {| store := assign_promise None (assign_tokens t (store w));
     promises := <[p := Done (Fulfilled tt)]> (promises w);
     requests := requests w;
     timers := timers w;
     next_promise := next_promise w;
     next_request := next_request w;
     next_timer := next_timer w;
     trace :=
       trace w ++ Assign t :: notified (onTokensRefreshedCallback (store w)) t ++
       Resolve p :: ((fun c => Deliver c (Fulfilled (access_token t))) <$> ws) ++
       [Clear] |}.
Proof.
  intros T L.
  unfold first_attempt_settled, then_, catch_, finally_, settle_with, resolve, emit.
  run_m. rewrite setTokens_runs. rewrite T.
  erewrite settle_pending by exact L. same_world.
Qed.

Lemma retry_attempt_rejected e ws :
  promises w !! p = Some (Pending ws) ->
  run_task (retry_attempt_settled p (Rejected e)) w =
  set_trace
    (trace w ++ Reject p retry_failed ::
       ((fun c => Deliver c (Rejected retry_failed)) <$> ws))
    (set_promises (<[p := Done (Rejected retry_failed)]> (promises w)) w).
Proof.
  intros L.
  unfold retry_attempt_settled, then_, catch_, settle_with, reject. run_m.
  erewrite settle_pending by exact L. reflexivity.
Qed.

Lemma retry_attempt_fulfilled t ws :
  thrown (onTokensRefreshedCallback (store w)) t = None ->
  promises w !! p = Some (Pending ws) ->
  run_task (retry_attempt_settled p (Fulfilled t)) w =
  {| store := assign_tokens t (store w);
     promises := <[p := Done (Fulfilled tt)]> (promises w);
     requests := requests w;
     timers := timers w;
     next_promise := next_promise w;
     next_request := next_request w;
     next_timer := next_timer w;
     trace :=
       trace w ++ Assign t :: notified (onTokensRefreshedCallback (store w)) t ++
       Resolve p :: ((fun c => Deliver c (Fulfilled (access_token t))) <$> ws) |}.
Proof.
  intros T L.
  unfold retry_attempt_settled, then_, catch_, settle_with, resolve. run_m.
  rewrite setTokens_runs. rewrite T.
  erewrite settle_pending by exact L. same_world.
Qed.

Lemma retry_attempt_callback_throws t e ws :
  thrown (onTokensRefreshedCallback (store w)) t = Some e ->
  promises w !! p = Some (Pending ws) ->
  run_task (retry_attempt_settled p (Fulfilled t)) w =
  {| store := assign_tokens t (store w);
     promises := <[p := Done (Rejected retry_failed)]> (promises w);
     requests := requests w;
     timers := timers w;
     next_promise := next_promise w;
     next_request := next_request w;
     next_timer := next_timer w;
     trace :=
       trace w ++ Assign t :: notified (onTokensRefreshedCallback (store w)) t ++
       Reject p retry_failed ::
       ((fun c => Deliver c (Rejected retry_failed)) <$> ws) |}.
Proof.
  intros T L.
  unfold retry_attempt_settled, then_, catch_, settle_with, reject. run_m.
  rewrite setTokens_runs. rewrite T.
  erewrite settle_pending by exact L. same_world.
Qed.

Lemma retry_posts :
  run_task (retry p) w =
  {| store := store w;
     promises := promises w;
     requests :=
       <[next_request w :=
           {| awaiting :=
                resume (getNewAccessToken (options (store w))
                          (getRefreshToken (store w)));
              attempt := RetryAttempt p |}]> (requests w);
     timers := timers w;
     next_promise := next_promise w;
     next_request := S (next_request w);
     next_timer := next_timer w;
     trace :=
       trace w ++
       [Post (next_request w)
          (request (getNewAccessToken (options (store w))
                      (getRefreshToken (store w))))] |}.
Proof. unfold retry, axios_post, emit. run_m. reflexivity. Qed.

End Chains.

Lemma run_app evs evs' w :
  run (evs ++ evs') w = run evs w ≫= run evs'.
Proof.
  revert w. induction evs as [|[now ev] evs IH]; intros w; cbn.
  - reflexivity.
  - destruct (step now ev w); cbn; [apply IH | reflexivity].
Qed.

Lemma run_one now ev w : run [(now, ev)] w = step now ev w.
Proof. cbn. destruct (step now ev w); reflexivity. Qed.

Lemma run_snoc evs now ev w w' :
  run evs w = Some w' ->
  run (evs ++ [(now, ev)]) w = step now ev w'.
Proof. intros R. rewrite run_app, R. cbn. apply run_one. Qed.

Section Operation.

Variable w : World.
Hypothesis idle : _promise (store w) = None.

Lemma first_caller_starts now caller :
  (expires_at (tokens (store w)) <= now)%Z ->
  step now (getAccessToken_called caller) w = Some (waiting w [caller]).
Proof.
  intros E. rewrite call_starts; [reflexivity | | exact idle].
  apply expired_iff, E.
Qed.

Lemma next_caller_joins now caller callers :
  (expires_at (tokens (store w)) <= now)%Z ->
  step now (getAccessToken_called caller) (waiting w callers) =
  Some (waiting w (callers ++ [caller])).
Proof.
  intros E.
  rewrite (call_joins _ _ _ (next_promise w) callers).
  - unfold waiting. same_world. rewrite insert_insert_eq. reflexivity.
  - apply expired_iff, E.
  - reflexivity.
  - cbn. apply lookup_insert_eq.
Qed.

Lemma more_callers_join cs callers :
  all_expired w cs ->
  run (calls cs) (waiting w callers) = Some (waiting w (callers ++ (snd <$> cs))).
Proof.
  revert callers. induction cs as [|[now c] cs IH]; intros callers E.
  - cbn. rewrite app_nil_r. reflexivity.
  - inversion E as [|? ? E1 E2]; subst. cbn in E1.
    cbn [calls fmap list_fmap run fst snd].
    rewrite next_caller_joins by exact E1. cbn.
    change (run (calls cs) (waiting w (callers ++ [c])) =
            Some (waiting w (callers ++ c :: (snd <$> cs)))).
    rewrite IH by exact E2. rewrite <- app_assoc. reflexivity.
Qed.

Lemma callers_wait c cs :
  all_expired w (c :: cs) ->
  run (calls (c :: cs)) w = Some (waiting w (snd <$> c :: cs)).
Proof.
  intros E. inversion E as [|? ? E1 E2]; subst.
  destruct c as [now c]. cbn [calls fmap list_fmap run fst snd].
  cbn in E1. rewrite first_caller_starts by exact E1. cbn.
  change (run (calls cs) (waiting w [c]) = Some (waiting w (c :: (snd <$> cs)))).
  apply (more_callers_join cs [c] E2).
Qed.

End Operation.

Section Attempts.

Variable w : World.
Variable callers : list nat.

Lemma resume_getNewAccessToken o token now response :
  resume (getNewAccessToken o token) now (Fulfilled response) =
  Fulfilled (refreshed now response).
Proof. reflexivity. Qed.

Lemma resume_getNewAccessToken_rejected o token now e :
  resume (getNewAccessToken o token) now (Rejected e) = Rejected e.
Proof. reflexivity. Qed.

Lemma first_post_fulfilled now response :
  thrown (onTokensRefreshedCallback (store w)) (refreshed now response) = None ->
  step now (post_settled (next_request w) (Fulfilled response)) (waiting w callers) =
  Some (refreshed_at_once now response w callers).
Proof.
  intros T. unfold step. cbn [requests waiting].
  rewrite lookup_insert_eq. cbn [mbind option_bind attempt awaiting].
  unfold first_post. rewrite resume_getNewAccessToken.
  erewrite first_attempt_fulfilled.
  - unfold refreshed_at_once, first_post. same_world.
    rewrite insert_insert_eq, delete_insert_eq. reflexivity.
  - exact T.
  - cbn. apply lookup_insert_eq.
Qed.

Lemma first_post_rejected now e :
  step now (post_settled (next_request w) (Rejected e)) (waiting w callers) =
  Some (delayed now None w callers).
Proof.
  unfold step. cbn [requests waiting].
  rewrite lookup_insert_eq. cbn [mbind option_bind attempt awaiting].
  unfold first_post. rewrite resume_getNewAccessToken_rejected.
  rewrite first_attempt_rejected.
  unfold retry_scheduled, delayed, first_post. same_world.
  rewrite delete_insert_eq. reflexivity.
Qed.

Lemma first_post_callback_throws now response e :
  thrown (onTokensRefreshedCallback (store w)) (refreshed now response) = Some e ->
  step now (post_settled (next_request w) (Fulfilled response)) (waiting w callers) =
  Some (delayed now (Some (refreshed now response)) w callers).
Proof.
  intros T. unfold step. cbn [requests waiting].
  rewrite lookup_insert_eq. cbn [mbind option_bind attempt awaiting].
  unfold first_post. rewrite resume_getNewAccessToken.
  erewrite first_attempt_callback_throws by exact T.
  unfold retry_scheduled, delayed, first_post. same_world.
  rewrite delete_insert_eq. reflexivity.
Qed.

Lemma timer_waits failed_at first now :
  (now < failed_at + 1000)%Z ->
  step now (timer_fired (next_timer w)) (delayed failed_at first w callers) = None.
Proof.
  intros E. unfold step. cbn [timers delayed].
  rewrite lookup_insert_eq. cbn.
  destruct (Z.leb_spec (failed_at + 1000) now); [lia | reflexivity].
Qed.

Lemma timer_fires failed_at first now :
  (failed_at + 1000 <= now)%Z ->
  step now (timer_fired (next_timer w)) (delayed failed_at first w callers) =
  Some (retrying first w callers).
Proof.
  intros E. unfold step. cbn [timers delayed].
  rewrite lookup_insert_eq. cbn [mbind option_bind].
  destruct (Z.leb_spec (failed_at + 1000) now); [| lia].
  rewrite retry_posts. unfold retrying, retry_post, first_post.
  destruct first; same_world; rewrite delete_insert_eq; reflexivity.
Qed.

Lemma retry_post_settles first now r :
  step now (post_settled (S (next_request w)) r) (retrying first w callers) =
  Some (finished first now r w callers).
Proof.
  unfold step. cbn [requests retrying].
  rewrite lookup_insert_eq. cbn [mbind option_bind attempt awaiting].
  assert (onTokensRefreshedCallback (store_after first (store w)) = (onTokensRefreshedCallback (store w))) as C
    by (destruct first; reflexivity).
  destruct r as [response|e]; unfold retry_post.
  - rewrite resume_getNewAccessToken.
    destruct (thrown (onTokensRefreshedCallback (store w)) (refreshed now response)) as [e|] eqn:T.
    + erewrite retry_attempt_callback_throws.
      * unfold finished, retry_outcome. rewrite T.
        destruct first; same_world;
          rewrite insert_insert_eq, delete_insert_eq; reflexivity.
      * cbn. rewrite C. exact T.
      * cbn. apply lookup_insert_eq.
    + erewrite retry_attempt_fulfilled.
      * unfold finished, retry_outcome. rewrite T.
        destruct first; same_world;
          rewrite insert_insert_eq, delete_insert_eq; reflexivity.
      * cbn. rewrite C. exact T.
      * cbn. apply lookup_insert_eq.
  - rewrite resume_getNewAccessToken_rejected.
    erewrite retry_attempt_rejected.
    + unfold finished, retry_outcome.
      destruct first; same_world;
        rewrite insert_insert_eq, delete_insert_eq; reflexivity.
    + cbn. apply lookup_insert_eq.
Qed.

End Attempts.

Section Frames.

Lemma settle_frame_at w p r :
  exists tr m,
    settle p r w = (Normal tt, set_trace tr (set_promises m w)) /\
    (m = promises w \/ m = <[p := Done r]> (promises w)).
Proof.
  destruct (promises w !! p) as [[ws|r']|] eqn:L.
  - eexists _, _. split; [apply (settle_pending _ _ _ _ L) | right; reflexivity].
  - exists (trace w), (promises w). split; [| left; reflexivity].
    rewrite (settle_done _ _ _ _ L). destruct w; reflexivity.
  - exists (trace w), (promises w). split; [| left; reflexivity].
    rewrite (settle_absent _ _ _ L). destruct w; reflexivity.
Qed.

Variable w : World.

Lemma first_attempt_frame now p p1 :
  let w' := run_task (first_attempt_settled now p p1) w in
  _promise (store w') = None /\
  requests w' = requests w /\
  next_promise w' = next_promise w /\
  options (store w') = options (store w) /\
  onTokensRefreshedCallback (store w') = onTokensRefreshedCallback (store w) /\
  (timers w' = timers w \/
   timers w' = <[next_timer w := ((now + 1000)%Z, p)]> (timers w)) /\
  tokens (store w') =
    match p1 with Fulfilled t => t | Rejected _ => tokens (store w) end.
Proof.
  destruct p1 as [t|e]; cbn zeta.
  - destruct (thrown (onTokensRefreshedCallback (store w)) t) as [e|] eqn:T.
    + rewrite (first_attempt_callback_throws _ _ _ _ _ T). cbn. tauto.
    + unfold first_attempt_settled, then_, catch_, finally_, settle_with,
        resolve, emit. run_m. rewrite setTokens_runs, T.
      match goal with |- context [settle p ?r ?v] =>
        destruct (settle_frame_at v p r) as (tr & m & -> & _) end.
      cbn. tauto.
  - rewrite first_attempt_rejected. cbn. tauto.
Qed.

End Frames.

Section Frames_retry.

Variable w : World.

Lemma retry_attempt_frame p p1 :
  let w' := run_task (retry_attempt_settled p p1) w in
  _promise (store w') = _promise (store w) /\
  requests w' = requests w /\
  timers w' = timers w /\
  next_promise w' = next_promise w /\
  options (store w') = options (store w) /\
  onTokensRefreshedCallback (store w') = onTokensRefreshedCallback (store w) /\
  (promises w' = promises w \/
   exists r, promises w' = <[p := Done r]> (promises w)) /\
  tokens (store w') =
    match p1 with Fulfilled t => t | Rejected _ => tokens (store w) end.
Proof.
  cbn zeta.
  unfold retry_attempt_settled, then_, catch_, settle_with, resolve, reject.
  destruct p1 as [t|e]; run_m.
  - rewrite setTokens_runs.
    destruct (thrown (onTokensRefreshedCallback (store w)) t) as [e|] eqn:T.
    + match goal with |- context [settle p ?r ?v] =>
        destruct (settle_frame_at v p r) as (tr & m & -> & [-> | ->]) end;
        cbn; intuition eauto.
    + match goal with |- context [settle p ?r ?v] =>
        destruct (settle_frame_at v p r) as (tr & m & -> & [-> | ->]) end;
        cbn; intuition eauto.
  - match goal with |- context [settle p ?r ?v] =>
      destruct (settle_frame_at v p r) as (tr & m & -> & [-> | ->]) end;
      cbn; intuition eauto.
Qed.

End Frames_retry.

Lemma initial_consistent s : _promise s = None -> consistent (initial_World s).
Proof.
  intros N. constructor; cbn; intros; simplify_map_eq; congruence.
Qed.

Lemma step_consistent now ev w w' :
  consistent w -> step now ev w = Some w' -> consistent w'.
Proof.
  intros C S. destruct ev as [callback|caller|id r|id]; cbn in S.
  - (* onRefreshToken *)
    inversion S; subst; clear S. destruct C. constructor; cbn; eauto.
  - (* getAccessToken *)
    destruct (accessTokenExpired now (store w)) eqn:E.
    + destruct (_promise (store w)) as [p|] eqn:N.
      * destruct (marker_pending _ C p N) as [ws L].
        change (step now (getAccessToken_called caller) w = Some w') in S.
        rewrite (call_joins _ _ _ _ _ E N L) in S.
        inversion S; subst; clear S. destruct C.
        constructor; cbn; eauto.
        intros q Q. rewrite N in Q. inversion Q; subst.
        rewrite lookup_insert_eq. eauto.
      * change (step now (getAccessToken_called caller) w = Some w') in S.
        rewrite (call_starts _ _ _ E N) in S.
        inversion S; subst; clear S.
        constructor; cbn.
        -- intros q Q. inversion Q; subst. rewrite lookup_insert_eq. eauto.
        -- intros id pp p L A Q. inversion Q; subst.
           rewrite lookup_insert in L. case_decide.
           ++ inversion L; subst. cbn in A. discriminate.
           ++ pose proof (request_bound _ C _ _ L) as B. rewrite A in B. cbn in B. lia.
        -- intros id due p L Q. inversion Q; subst.
           pose proof (timer_bound _ C _ _ _ L). lia.
        -- intros id pp p L A. rewrite lookup_insert in L. case_decide.
           ++ inversion L; subst. cbn in A. congruence.
           ++ pose proof (first_marked _ C _ _ _ L A). congruence.
        -- intros id id' pp pp' p p' L A L' A'.
           rewrite lookup_insert in L. rewrite lookup_insert in L'.
           repeat case_decide; subst; try reflexivity;
             try (pose proof (first_marked _ C _ _ _ L A); congruence);
             try (pose proof (first_marked _ C _ _ _ L' A'); congruence).
        -- intros id pp L. rewrite lookup_insert in L. case_decide.
           ++ inversion L; subst. cbn. lia.
           ++ pose proof (request_bound _ C _ _ L). lia.
        -- intros id due p L. pose proof (timer_bound _ C _ _ _ L). lia.
        -- intros id pp L. rewrite lookup_insert in L. case_decide.
           ++ inversion L; subst. cbn.
              exists (options (store w)), (getRefreshToken (store w)). reflexivity.
           ++ eapply request_awaits; eauto.
    + change (step now (getAccessToken_called caller) w = Some w') in S.
      rewrite (call_cached _ _ _ E) in S.
      inversion S; subst; clear S. destruct C. constructor; cbn; eauto.
  - (* a POST settles *)
    destruct (requests w !! id) as [pp|] eqn:L; cbn in S; [| discriminate].
    inversion S; subst; clear S.
    destruct (attempt pp) as [p|p] eqn:A.
    + (* first attempt *)
      match goal with |- consistent (run_task ?m ?v) =>
        pose proof (first_attempt_frame v now p (awaiting pp now r)) as F end.
      cbn zeta in F. destruct F as (F1 & F2 & F3 & F4 & F5 & F6 & F7).
      cbn in F2, F3, F6.
      constructor.
      * intros q Q. congruence.
      * intros. congruence.
      * intros. congruence.
      * intros id' pp' p' L' A'. rewrite F2 in L'.
        apply lookup_delete_Some in L' as [Hne L'].
        exfalso. apply Hne. eapply first_unique; eauto.
      * intros id1 id2 pp1 pp2 p1 p2 L1 A1 L2 A2. rewrite F2 in L1, L2.
        apply lookup_delete_Some in L1 as [_ L1].
        apply lookup_delete_Some in L2 as [_ L2].
        eapply first_unique; eauto.
      * intros id' pp' L'. rewrite F2 in L'. rewrite F3.
        apply lookup_delete_Some in L' as [_ L'].
        eapply request_bound; eauto.
      * intros id' due p' L'. rewrite F3. destruct F6 as [F6 | F6]; rewrite F6 in L'.
        -- eapply timer_bound; eauto.
        -- rewrite lookup_insert in L'. case_decide.
           ++ inversion L'; subst.
              pose proof (request_bound _ C _ _ L) as B. rewrite A in B. exact B.
           ++ eapply timer_bound; eauto.
      * intros id' pp' L'. rewrite F2 in L'.
        apply lookup_delete_Some in L' as [_ L'].
        eapply request_awaits; eauto.
    + (* retry *)
      match goal with |- consistent (run_task ?m ?v) =>
        pose proof (retry_attempt_frame v p (awaiting pp now r)) as F end.
      cbn zeta in F. destruct F as (F1 & F2 & F3 & F4 & F5 & F6 & F7 & F8).
      cbn in F1, F2, F3, F4, F7.
      constructor.
      * intros q Q. rewrite F1 in Q.
        destruct (marker_pending _ C q Q) as [ws Lq].
        destruct F7 as [F7 | [r' F7]]; rewrite F7; [eauto |].
        rewrite lookup_insert_ne; [eauto |].
        intros ->. eapply retry_unmarked; eauto.
      * intros id' pp' p' L' A'. rewrite F2 in L'. rewrite F1.
        apply lookup_delete_Some in L' as [_ L'].
        eapply retry_unmarked; eauto.
      * intros id' due p' L'. rewrite F3 in L'. rewrite F1.
        eapply timer_unmarked; eauto.
      * intros id' pp' p' L' A'. rewrite F2 in L'. rewrite F1.
        apply lookup_delete_Some in L' as [_ L'].
        eapply first_marked; eauto.
      * intros id1 id2 pp1 pp2 p1 p2 L1 A1 L2 A2. rewrite F2 in L1, L2.
        apply lookup_delete_Some in L1 as [_ L1].
        apply lookup_delete_Some in L2 as [_ L2].
        eapply first_unique; eauto.
      * intros id' pp' L'. rewrite F2 in L'. rewrite F4.
        apply lookup_delete_Some in L' as [_ L'].
        eapply request_bound; eauto.
      * intros id' due p' L'. rewrite F3 in L'. rewrite F4.
        eapply timer_bound; eauto.
      * intros id' pp' L'. rewrite F2 in L'.
        apply lookup_delete_Some in L' as [_ L'].
        eapply request_awaits; eauto.
  - (* a timer fires *)
    destruct (timers w !! id) as [[due p]|] eqn:L; cbn in S; [| discriminate].
    destruct (due <=? now)%Z; [| discriminate].
    inversion S; subst; clear S. rewrite retry_posts. cbn.
    constructor; cbn.
    + apply (marker_pending _ C).
    + intros id' pp' p' L' A'. rewrite lookup_insert in L'. case_decide.
      * inversion L'; subst. cbn in A'. inversion A'; subst.
        eapply timer_unmarked; eauto.
      * eapply retry_unmarked; eauto.
    + intros id' due' p' L'. apply lookup_delete_Some in L' as [_ L'].
      eapply timer_unmarked; eauto.
    + intros id' pp' p' L' A'. rewrite lookup_insert in L'. case_decide.
      * inversion L'; subst. cbn in A'. discriminate.
      * eapply first_marked; eauto.
    + intros id1 id2 pp1 pp2 p1 p2 L1 A1 L2 A2.
      rewrite lookup_insert in L1. rewrite lookup_insert in L2.
      repeat case_decide; subst; try reflexivity;
        try (inversion L1; subst; cbn in A1; discriminate);
        try (inversion L2; subst; cbn in A2; discriminate).
      eapply first_unique; eauto.
    + intros id' pp' L'. rewrite lookup_insert in L'. case_decide.
      * inversion L'; subst. cbn. eapply timer_bound; eauto.
      * eapply request_bound; eauto.
    + intros id' due' p' L'. apply lookup_delete_Some in L' as [_ L'].
      eapply timer_bound; eauto.
    + intros id' pp' L'. rewrite lookup_insert in L'. case_decide.
      * inversion L'; subst. cbn.
        exists (options (store w)), (getRefreshToken (store w)). reflexivity.
      * eapply request_awaits; eauto.
Qed.

Lemma reachable_consistent w : reachable w -> consistent w.
Proof.
  induction 1 as [o t | w now ev w' _ IH S].
  - apply initial_consistent. reflexivity.
  - eapply step_consistent; eauto.
Qed.

(** Whatever the tasks and their order: at most one first attempt is in
    flight, and it is the one of the promise held in the marker. *)
Lemma one_first_attempt_in_flight w id id' pp pp' p p' :
  reachable w ->
  requests w !! id = Some pp -> attempt pp = FirstAttempt p ->
  requests w !! id' = Some pp' -> attempt pp' = FirstAttempt p' ->
  id = id' /\ _promise (store w) = Some p.
Proof.
  intros R L A L' A'. pose proof (reachable_consistent w R) as C. split.
  - exact (first_unique _ C _ _ _ _ _ _ L A L' A').
  - exact (first_marked _ C _ _ _ L A).
Qed.

Section Counting.

Variable f : effect -> bool.

Lemma count_app a b : count f (a ++ b) = count f a + count f b.
Proof. unfold count. rewrite List.filter_app, length_app. reflexivity. Qed.

Lemma count_cons e t : count f (e :: t) = (if f e then 1 else 0) + count f t.
Proof. unfold count. cbn. destruct (f e); reflexivity. Qed.

Lemma count_nil : count f [] = 0.
Proof. reflexivity. Qed.

End Counting.

Lemma count_Post_delivers (g : nat -> Settled string) (l : list nat) :
  count is_Post ((fun c => Deliver c (g c)) <$> l) = 0.
Proof. induction l; [reflexivity | rewrite fmap_cons, count_cons; exact IHl]. Qed.

Lemma count_Notify_delivers (g : nat -> Settled string) (l : list nat) :
  count is_Notify ((fun c => Deliver c (g c)) <$> l) = 0.
Proof. induction l; [reflexivity | rewrite fmap_cons, count_cons; exact IHl]. Qed.

Lemma count_Deliver_delivers (g : nat -> Settled string) (l : list nat) :
  count is_Deliver ((fun c => Deliver c (g c)) <$> l) = length l.
Proof.
  induction l; [reflexivity |].
  rewrite fmap_cons, count_cons, IHl. reflexivity.
Qed.

Lemma count_Post_notified cb t : count is_Post (notified cb t) = 0.
Proof. destruct cb; reflexivity. Qed.

Lemma count_Deliver_notified cb t : count is_Deliver (notified cb t) = 0.
Proof. destruct cb; reflexivity. Qed.

Lemma count_Notify_notified cb t :
  count is_Notify (notified cb t) = length (notified cb t).
Proof. destruct cb; reflexivity. Qed.

Ltac count_trace :=
  repeat first
    [ rewrite count_app | rewrite count_cons | rewrite count_nil
    | rewrite count_Post_delivers | rewrite count_Notify_delivers
    | rewrite count_Deliver_delivers | rewrite count_Post_notified
    | rewrite count_Deliver_notified | rewrite count_Notify_notified ];
  cbn [is_Post is_Notify is_Deliver].

Section First_attempt.

Variable w : World.
Variable callers : list nat.


Lemma first_post_fails now r first :
  first_failure (onTokensRefreshedCallback (store w)) now r = Some first ->
  step now (post_settled (next_request w) r) (waiting w callers) =
  Some (delayed now first w callers).
Proof.
  destruct r as [response|e]; cbn.
  - destruct (thrown (onTokensRefreshedCallback (store w)) (refreshed now response)) eqn:T; [| discriminate].
    intros F. inversion F; subst. eapply first_post_callback_throws, T.
  - intros F. inversion F; subst. apply first_post_rejected.
Qed.

End First_attempt.

(** ** The access token and its expiry *)

(** C7 — [getAccessToken()] hands out the cached access token at once,
    without any network call and without touching anything else, exactly
    when [now < expires_at].  When [now >= expires_at] (the boundary
    instant included) nothing is handed out in that task: the caller is
    suspended on the promise of a refresh, which it either joins (a
    refresh is in progress: no network call) or starts (one POST). *)
Theorem C7_cached_until_expiry (w : World) (now : Z) (caller : nat) :
  reachable w ->
  exists w',
    step now (getAccessToken_called caller) w = Some w' /\
    ((now < expires_at (tokens (store w)))%Z ->
       w' = set_trace
              (trace w ++
               [Deliver caller (Fulfilled (access_token (tokens (store w))))])
              w) /\
    ((expires_at (tokens (store w)) <= now)%Z ->
       count is_Deliver (trace w') = count is_Deliver (trace w) /\
       exists p ws,
         _promise (store w') = Some p /\
         promises w' !! p = Some (Pending (ws ++ [caller])) /\
         match _promise (store w) with
         | Some q =>
             q = p /\ promises w !! p = Some (Pending ws) /\
             trace w' = trace w
         | None =>
             ws = [] /\
             trace w' =
               trace w ++ [Post (next_request w) (request (first_post w))]
         end).
Proof.
  intros R. pose proof (reachable_consistent w R) as C.
  destruct (Z.lt_ge_cases now (expires_at (tokens (store w)))) as [Lt | Ge].
  - eexists. split; [apply call_cached, not_expired_iff, Lt |].
    split; [reflexivity | intros; lia].
  - pose proof (proj2 (expired_iff now (store w)) Ge) as E.
    destruct (_promise (store w)) as [q|] eqn:N.
    + destruct (marker_pending _ C q N) as [ws L].
      eexists. split; [apply (call_joins _ _ _ _ _ E N L) |].
      split; [intros; lia |]. intros _. split; [reflexivity |].
      exists q, ws. cbn. rewrite lookup_insert_eq. auto.
    + eexists. split; [apply (call_starts _ _ _ E N) |].
      split; [intros; lia |]. intros _. split.
      * cbn [trace]. count_trace. lia.
      * exists (next_promise w), []. cbn. rewrite lookup_insert_eq. auto.
Qed.

Lemma C7_cached_until_expiry_witness :
  reachable example_world /\
  exists w', step 3600000%Z (getAccessToken_called 1) example_world = Some w'.
Proof.
  split; [apply reachable_new |].
  destruct (C7_cached_until_expiry example_world 3600000%Z 1
              (reachable_new _ _)) as (w' & S & _).
  exists w'. exact S.
Defined.

(** C6 — every token set made by a grant ([login]) or by a refresh
    ([getNewAccessToken]) has [expires_at] equal to the clock reading at
    which the call completed plus [expires_in * 1000]; and a task either
    leaves the stored token set as it is, or replaces it as a whole by the
    set built from a response received in that very task. *)
Theorem C6_expires_at :
  (forall o clientOptions now response,
     exists s,
       resume (login o clientOptions) now (Fulfilled response) = Fulfilled s /\
       inherited (getTokens s) = data response /\
       expires_at (getTokens s) =
         (now + expires_in (getTokens s) * 1000)%Z) /\
  (forall o token now response,
     exists t,
       resume (getNewAccessToken o token) now (Fulfilled response) = Fulfilled t /\
       expires_in t = expires_in (data response) /\
       expires_at t = (now + expires_in t * 1000)%Z) /\
  (forall w now ev w',
     reachable w -> step now ev w = Some w' ->
     getTokens (store w') = getTokens (store w) \/
     exists id response,
       ev = post_settled id (Fulfilled response) /\
       getTokens (store w') = refreshed now response /\
       expires_at (getTokens (store w')) =
         (now + expires_in (data response) * 1000)%Z).
Proof.
  split; [| split].
  - intros. eexists. split; [reflexivity |]. split; reflexivity.
  - intros. eexists. split; [reflexivity |]. split; reflexivity.
  - intros w now ev w' R S. pose proof (reachable_consistent w R) as C.
    unfold getTokens.
    destruct ev as [callback|caller|id r|id]; cbn in S.
    + inversion S; subst. left. reflexivity.
    + left. change (step now (getAccessToken_called caller) w = Some w') in S.
      destruct (accessTokenExpired now (store w)) eqn:E.
      * destruct (_promise (store w)) as [q|] eqn:N.
        -- destruct (marker_pending _ C q N) as [ws L].
           rewrite (call_joins _ _ _ _ _ E N L) in S. inversion S; reflexivity.
        -- rewrite (call_starts _ _ _ E N) in S. inversion S; reflexivity.
      * rewrite (call_cached _ _ _ E) in S. inversion S; reflexivity.
    + destruct (requests w !! id) as [pp|] eqn:L; cbn in S; [| discriminate].
      destruct (request_awaits _ C _ _ L) as (o & token & A).
      inversion S; subst; clear S. rewrite A.
      assert (forall v p,
        tokens (store (match attempt pp with
                       | FirstAttempt q =>
                           run_task (first_attempt_settled now q p) v
                       | RetryAttempt q =>
                           run_task (retry_attempt_settled q p) v
                       end)) =
        match p with Fulfilled t => t | Rejected _ => tokens (store v) end) as F.
      { intros v p. destruct (attempt pp) as [q|q].
        - apply (first_attempt_frame v now q p).
        - apply (retry_attempt_frame v q p). }
      rewrite F. destruct r as [response|e]; cbn.
      * right. exists id, response. auto.
      * left. reflexivity.
    + destruct (timers w !! id) as [[due p]|] eqn:L; cbn in S; [| discriminate].
      destruct (due <=? now)%Z; [| discriminate].
      inversion S; subst. rewrite retry_posts. left. reflexivity.
Qed.

Lemma C6_expires_at_witness :
  reachable (waiting example_world [1]) /\
  step 3600050%Z (post_settled 0 (Fulfilled (example_response "a2" "r2")))
    (waiting example_world [1]) =
  Some (refreshed_at_once 3600050%Z (example_response "a2" "r2") example_world [1]) /\
  (getTokens (store (refreshed_at_once 3600050%Z (example_response "a2" "r2")
                       example_world [1])) =
   getTokens (store (waiting example_world [1])) \/
   exists id response,
     post_settled 0 (Fulfilled (example_response "a2" "r2")) =
       post_settled id (Fulfilled response) /\
     getTokens (store (refreshed_at_once 3600050%Z (example_response "a2" "r2")
                         example_world [1])) =
       refreshed 3600050%Z response /\
     expires_at (getTokens (store (refreshed_at_once 3600050%Z
                                     (example_response "a2" "r2")
                                     example_world [1]))) =
       (3600050 + expires_in (data response) * 1000)%Z).
Proof.
  assert (reachable (waiting example_world [1])) as R.
  { apply (reachable_step example_world 3600000%Z (getAccessToken_called 1)).
    - apply reachable_new.
    - apply first_caller_starts; [reflexivity | cbn; lia]. }
  assert (step 3600050%Z (post_settled 0 (Fulfilled (example_response "a2" "r2")))
            (waiting example_world [1]) =
          Some (refreshed_at_once 3600050%Z (example_response "a2" "r2")
                  example_world [1])) as S.
  { apply (first_post_fulfilled example_world [1]). reflexivity. }
  split; [exact R |]. split; [exact S |].
  exact (proj2 (proj2 C6_expires_at) _ _ _ _ R S).
Defined.

(** ** The callback slot *)

Lemma filter_Notify_delivers (g : nat -> Settled string) (l : list nat) :
  List.filter is_Notify ((fun c => Deliver c (g c)) <$> l) = [].
Proof. induction l; [reflexivity | exact IHl]. Qed.



(** ** Runs of one refresh operation *)

Section Runs.

Variable w : World.
Variable c : Z * nat.
Variable cs : list (Z * nat).

Hypothesis idle : _promise (store w) = None.
Hypothesis expired : all_expired w (c :: cs).

Lemma run_first_fulfilled now response :
  thrown (onTokensRefreshedCallback (store w)) (refreshed now response) = None ->
  run (calls (c :: cs) ++
       [(now, post_settled (next_request w) (Fulfilled response))]) w =
  Some (refreshed_at_once now response w (snd <$> c :: cs)).
Proof.
  intros T. erewrite run_snoc by (apply callers_wait; [exact idle | exact expired]).
  apply first_post_fulfilled, T.
Qed.

Lemma run_first_fails failed_at r first :
  first_failure (onTokensRefreshedCallback (store w)) failed_at r = Some first ->
  run (calls (c :: cs) ++
       [(failed_at, post_settled (next_request w) r)]) w =
  Some (delayed failed_at first w (snd <$> c :: cs)).
Proof.
  intros F. erewrite run_snoc by (apply callers_wait; [exact idle | exact expired]).
  apply first_post_fails, F.
Qed.

Lemma run_timer_fires failed_at r first fired_at :
  first_failure (onTokensRefreshedCallback (store w)) failed_at r = Some first ->
  (failed_at + 1000 <= fired_at)%Z ->
  run (calls (c :: cs) ++
       [(failed_at, post_settled (next_request w) r);
        (fired_at, timer_fired (next_timer w))]) w =
  Some (retrying first w (snd <$> c :: cs)).
Proof.
  intros F D.
  change [(failed_at, post_settled (next_request w) r);
          (fired_at, timer_fired (next_timer w))]
    with ([(failed_at, post_settled (next_request w) r)] ++
          [(fired_at, timer_fired (next_timer w))]).
  rewrite app_assoc.
  erewrite run_snoc by (apply run_first_fails, F).
  apply timer_fires, D.
Qed.

Lemma run_retry_settles failed_at r first fired_at now r' :
  first_failure (onTokensRefreshedCallback (store w)) failed_at r = Some first ->
  (failed_at + 1000 <= fired_at)%Z ->
  run (calls (c :: cs) ++
       [(failed_at, post_settled (next_request w) r);
        (fired_at, timer_fired (next_timer w));
        (now, post_settled (S (next_request w)) r')]) w =
  Some (finished first now r' w (snd <$> c :: cs)).
Proof.
  intros F D.
  change [(failed_at, post_settled (next_request w) r);
          (fired_at, timer_fired (next_timer w));
          (now, post_settled (S (next_request w)) r')]
    with ([(failed_at, post_settled (next_request w) r);
           (fired_at, timer_fired (next_timer w))] ++
          [(now, post_settled (S (next_request w)) r')]).
  rewrite app_assoc.
  erewrite run_snoc by (apply (run_timer_fires _ _ _ _ F D)).
  apply retry_post_settles.
Qed.

End Runs.

Section Reading_traces.

Lemma filter_Deliver_delivers (g : nat -> Settled string) (l : list nat) :
  List.filter is_Deliver ((fun c => Deliver c (g c)) <$> l) =
  (fun c => Deliver c (g c)) <$> l.
Proof. induction l; [reflexivity | cbn; f_equal; exact IHl]. Qed.

Lemma filter_Deliver_notified cb t : List.filter is_Deliver (notified cb t) = [].
Proof. destruct cb; reflexivity. Qed.

Lemma filter_Deliver_trace_after first s :
  List.filter is_Deliver (trace_after first s) = [].
Proof. destruct first; [apply filter_Deliver_notified | reflexivity]. Qed.

Lemma filter_Deliver_trace_then now r s :
  List.filter is_Deliver (trace_then now r s) = [].
Proof. destruct r; [apply filter_Deliver_notified | reflexivity]. Qed.

Lemma filter_Deliver_settled p r t :
  List.filter is_Deliver (settled_effect p r :: t) = List.filter is_Deliver t.
Proof. destruct r; reflexivity. Qed.


Lemma count_Post_trace_then now r s : count is_Post (trace_then now r s) = 0.
Proof. destruct r; [apply count_Post_notified | reflexivity]. Qed.

Lemma count_Post_settled p r t :
  count is_Post (settled_effect p r :: t) = count is_Post t.
Proof. destruct r; reflexivity. Qed.

Lemma deliveries_refreshed_at_once now response w callers :
  List.filter is_Deliver (trace (refreshed_at_once now response w callers)) =
  List.filter is_Deliver (trace w) ++
  ((fun c => Deliver c (Fulfilled (access_token (data response)))) <$> callers).
Proof.
  cbn [trace refreshed_at_once]. rewrite List.filter_app. f_equal.
  cbn [List.filter is_Post is_Deliver].
  rewrite List.filter_app, filter_Deliver_notified. cbn [app List.filter is_Deliver].
  rewrite List.filter_app, filter_Deliver_delivers. cbn. apply app_nil_r.
Qed.

Lemma deliveries_retrying first w callers :
  List.filter is_Deliver (trace (retrying first w callers)) =
  List.filter is_Deliver (trace w).
Proof.
  cbn [trace retrying]. rewrite List.filter_app.
  cbn [List.filter is_Deliver].
  rewrite List.filter_app, filter_Deliver_trace_after. cbn. apply app_nil_r.
Qed.

Lemma deliveries_finished first now r w callers :
  List.filter is_Deliver (trace (finished first now r w callers)) =
  List.filter is_Deliver (trace w) ++
  ((fun c =>
      Deliver c
        (delivered (retry_outcome (onTokensRefreshedCallback (store w)) now r)
           (store (finished first now r w callers)))) <$> callers).
Proof.
  cbn [trace store finished]. rewrite List.filter_app, deliveries_retrying. f_equal.
  rewrite List.filter_app, filter_Deliver_trace_then. cbn [app].
  rewrite filter_Deliver_settled. apply filter_Deliver_delivers.
Qed.




End Reading_traces.


(** ** Single flight *)




(** ** The marker [_promise] *)

(** When the first POST of a refresh is rejected, the [catch] handler
    only starts the timer and returns, so the [finally] handler runs in the
    same task: the marker is cleared while the promise of the operation is
    still pending, nothing has been handed to its waiters, and the timer
    of the retry is running.  A caller that arrives during the delay then
    starts a second refresh. *)
Lemma marker_cleared_during_delay (w : World) (callers : list nat)
    (failed_at : Z) (e : JsError) :
  exists w',
    step failed_at (post_settled (next_request w) (Rejected e))
      (waiting w callers) = Some w' /\
    _promise (store (waiting w callers)) = Some (next_promise w) /\
    _promise (store w') = None /\
    promises w' !! next_promise w = Some (Pending callers) /\
    timers w' !! next_timer w = Some ((failed_at + 1000)%Z, next_promise w) /\
    List.filter is_Deliver (trace w') = List.filter is_Deliver (trace w) /\
    forall now caller,
      (expires_at (tokens (store w)) <= now)%Z ->
      step now (getAccessToken_called caller) w' = Some (waiting w' [caller]).
Proof.
  exists (delayed failed_at None w callers).
  split; [apply first_post_rejected |]. split; [reflexivity |].
  split; [reflexivity |]. split; [cbn; apply lookup_insert_eq |].
  split; [cbn; apply lookup_insert_eq |]. split.
  - cbn [trace delayed trace_after]. rewrite List.filter_app. cbn. apply app_nil_r.
  - intros now caller E. apply first_caller_starts; [reflexivity | exact E].
Qed.

(** C2 — the code does not do what the claim says.  One caller, the
    first POST rejected at 3600050: in that very task the marker goes from
    the promise of the operation to null, although that promise is still
    pending with its caller waiting, nothing has been delivered, and the
    timer of the retry is only due at 3601050.  A second caller at
    3600500 finds no refresh in progress and starts another one: a second
    POST and a second promise. *)
Theorem C2_marker_cleared_before_outcome :
  exists w1 w2 w3,
    run (calls [(3600001%Z, 1)]) example_world = Some w1 /\
    _promise (store w1) = Some 0 /\
    step 3600050%Z (post_settled 0 (Rejected (AxiosError "503"))) w1 = Some w2 /\
    _promise (store w2) = None /\
    promises w2 !! 0 = Some (Pending [1]) /\
    timers w2 !! 0 = Some (3601050%Z, 0) /\
    List.filter is_Deliver (trace w2) = [] /\
    step 3600500%Z (getAccessToken_called 2) w2 = Some w3 /\
    count is_Post (trace w3) = 2 /\
    _promise (store w3) = Some 1 /\
    promises w3 !! 1 = Some (Pending [2]).
Proof.
  destruct (marker_cleared_during_delay example_world [1] 3600050%Z
              (AxiosError "503")) as (w2 & S & M1 & M2 & P & T & D & Again).
  exists (waiting example_world [1]), w2, (waiting w2 [2]).
  split; [apply (callers_wait example_world eq_refl (3600001%Z, 1) []);
          repeat constructor; cbn; lia |].
  split; [exact M1 |]. split; [exact S |]. split; [exact M2 |].
  split; [exact P |]. split; [exact T |]. split; [exact D |].
  split; [apply Again; cbn; lia |].
  rewrite first_post_rejected in S. inversion S; subst.
  split; [reflexivity |]. split; [reflexivity |].
  cbn. apply lookup_insert_eq.
Qed.

(** ** The retry *)



(** ** The callback *)




(** C10 — the registered callback throws when it is invoked after the
    first POST has succeeded.  The stored token set has by then been
    replaced by the new one; the waiters are not resumed, and the chain
    takes its failure path: it logs, starts the timer of 1000 ms and
    clears the marker.  When the timer fires, a second POST is sent, with
    the refresh token of the set just stored; and when that POST
    succeeds, the callback is invoked a second time. *)
Theorem C10_throwing_callback_retries (w : World) (c : Z * nat)
    (cs : list (Z * nat)) (callback : Callback) (succeeded_at fired_at : Z)
    (response : AxiosResponse) (e : JsError) :
  _promise (store w) = None ->
  all_expired w (c :: cs) ->
  onTokensRefreshedCallback (store w) = Some callback ->
  cb_run callback (refreshed succeeded_at response) = Some e ->
  (succeeded_at + 1000 <= fired_at)%Z ->
  exists w1 w2,
    run (calls (c :: cs) ++
         [(succeeded_at, post_settled (next_request w) (Fulfilled response))]) w =
      Some w1 /\
    getTokens (store w1) = refreshed succeeded_at response /\
    trace w1 =
      trace w ++
      [Post (next_request w) (request (first_post w));
       Assign (refreshed succeeded_at response);
       Notify (cb_name callback) (refreshed succeeded_at response);
       ConsoleError "Failed to refresh access token, trying again...";
       SetTimeout (next_timer w) 1000%Z;
       Clear] /\
    promises w1 !! next_promise w = Some (Pending (snd <$> c :: cs)) /\
    (forall now, (now < succeeded_at + 1000)%Z ->
       step now (timer_fired (next_timer w)) w1 = None) /\
    step fired_at (timer_fired (next_timer w)) w1 = Some w2 /\
    (exists req,
       trace w2 = trace w1 ++ [Post (S (next_request w)) req] /\
       url req = tokenEndpoint (options (store w)) /\
       headers req =
         [("Content-Type", "application/x-www-form-urlencoded")]%string /\
       body req =
         RefreshBody refresh_token_grant (refresh_token (data response))
           (clientId (options (store w))) (clientSecret (options (store w)))
           (String.concat " " <$> scopes (options (store w)))) /\
    forall now response',
      exists w3 rest,
        step now (post_settled (S (next_request w)) (Fulfilled response')) w2 =
          Some w3 /\
        trace w3 =
          trace w2 ++
          Assign (refreshed now response') ::
          Notify (cb_name callback) (refreshed now response') :: rest /\
        getTokens (store w3) = refreshed now response' /\
        count is_Notify (trace w3) = count is_Notify (trace w) + 2.
Proof.
  intros N E CB T D.
  assert (thrown (onTokensRefreshedCallback (store w))
            (refreshed succeeded_at response) = Some e) as T'
    by (rewrite CB; exact T).
  pose (first := Some (refreshed succeeded_at response)).
  exists (delayed succeeded_at first w (snd <$> c :: cs)),
         (retrying first w (snd <$> c :: cs)).
  split; [apply (run_first_fails w c cs N E); cbn; rewrite T'; reflexivity |].
  split; [reflexivity |].
  split; [cbn [trace delayed trace_after first]; rewrite CB; reflexivity |].
  split; [cbn; apply lookup_insert_eq |].
  split; [intros now L; apply timer_waits, L |].
  split; [apply timer_fires, D |].
  split.
  { eexists. split.
    - cbn [trace retrying delayed trace_after first]. rewrite CB.
      cbn [notified app]. rewrite <- app_assoc. reflexivity.
    - repeat split; reflexivity. }
  intros now response'.
  exists (finished first now (Fulfilled response') w (snd <$> c :: cs)).
  eexists. split; [apply retry_post_settles |]. split; [| split].
  - cbn [trace finished trace_then]. rewrite CB. cbn [notified app]. reflexivity.
  - reflexivity.
  - cbn [trace finished retrying trace_after trace_then first]. rewrite CB.
    cbn [notified]. count_trace.
    destruct (retry_outcome _ _ _); cbn; lia.
Qed.

Lemma C10_throwing_callback_retries_witness :
  _promise (store (watched_world throwing_callback)) = None /\
  all_expired (watched_world throwing_callback) [(3600001%Z, 1)] /\
  onTokensRefreshedCallback (store (watched_world throwing_callback)) =
    Some throwing_callback /\
  cb_run throwing_callback (refreshed 3600050%Z (example_response "a2" "r2")) =
    Some (Error "quota exceeded") /\
  (3600050 + 1000 <= 3601050)%Z /\
  exists w1 w2,
    run (calls [(3600001%Z, 1)] ++
         [(3600050%Z, post_settled 0 (Fulfilled (example_response "a2" "r2")))])
      (watched_world throwing_callback) = Some w1 /\
    step 3601050%Z (timer_fired 0) w1 = Some w2 /\
    trace w2 =
      trace w1 ++
      [Post 1
         {| url := "https://auth.example/token";
            body := RefreshBody refresh_token_grant "r2" "app" "secret"
                      (Some "read write"%string);
            headers :=
              [("Content-Type", "application/x-www-form-urlencoded")]%string |}].
Proof.
  assert (all_expired (watched_world throwing_callback) [(3600001%Z, 1)]) as E
    by (repeat constructor; cbn; lia).
  assert (3600050 + 1000 <= 3601050)%Z as D by lia.
  split; [reflexivity |]. split; [exact E |]. split; [reflexivity |].
  split; [reflexivity |]. split; [exact D |].
  destruct (C10_throwing_callback_retries (watched_world throwing_callback)
              (3600001%Z, 1) [] throwing_callback 3600050%Z 3601050%Z
              (example_response "a2" "r2") (Error "quota exceeded")
              eq_refl E eq_refl eq_refl D)
    as (w1 & w2 & R & _ & _ & _ & _ & S & (req & T & U & H & B) & _).
  exists w1, w2. split; [exact R |]. split; [exact S |].
  destruct req as [u b h]. cbn in U, H, B. subst u b h. exact T.
Defined.

(** * Further properties of the code *)

(** ** Every task, case by case *)

Lemma settle_is p r w : settle p r w = (Normal tt, settled p r w).
Proof.
  unfold settled. destruct (promises w !! p) as [[ws|r']|] eqn:L.
  - apply settle_pending, L.
  - eapply settle_done, L.
  - apply settle_absent, L.
Qed.

Lemma first_attempt_succeeds now p t w :
  thrown (onTokensRefreshedCallback (store w)) t = None ->
  run_task (first_attempt_settled now p (Fulfilled t)) w =
  cleared
    (settled p (Fulfilled tt)
       (set_trace
          (trace w ++ Assign t :: notified (onTokensRefreshedCallback (store w)) t)
          (set_store (assign_tokens t (store w)) w))).
Proof.
  intros T.
  unfold first_attempt_settled, then_, catch_, finally_, settle_with, resolve, emit.
  run_m. rewrite setTokens_runs, T. rewrite settle_is. reflexivity.
Qed.

Lemma retry_attempt_runs now p r w :
  run_task
    (retry_attempt_settled p (resume (first_post w) now r)) w =
  settled p (retry_outcome (onTokensRefreshedCallback (store w)) now r)
    (stored now r w).
Proof.
  unfold first_post. destruct r as [response|e].
  - rewrite resume_getNewAccessToken.
    unfold retry_attempt_settled, then_, catch_, settle_with, resolve, reject.
    unfold run_task, mbind, M_bind, bind, mret, M_ret, ret.
    rewrite setTokens_runs. unfold retry_outcome.
    destruct (thrown (onTokensRefreshedCallback (store w)) (refreshed now response))
      eqn:T; rewrite settle_is; reflexivity.
  - rewrite resume_getNewAccessToken_rejected.
    unfold retry_attempt_settled, then_, catch_, settle_with, resolve, reject.
    unfold run_task, mbind, M_bind, bind, mret, M_ret, ret.
    rewrite settle_is. unfold stored. cbn.
    rewrite app_nil_r. destruct w; reflexivity.
Qed.

Lemma step_task now ev w w' :
  consistent w -> step now ev w = Some w' -> task now w ev w'.
Proof.
  intros C S. destruct ev as [callback|caller|id r|id].
  - cbn in S. inversion S; subst. constructor.
  - destruct (accessTokenExpired now (store w)) eqn:E.
    + destruct (_promise (store w)) as [p|] eqn:N.
      * destruct (marker_pending _ C p N) as [ws L].
        rewrite (call_joins _ _ _ _ _ E N L) in S. inversion S; subst.
        econstructor; eauto.
      * rewrite (call_starts _ _ _ E N) in S. inversion S; subst.
        apply (task_starts now w caller E N).
    + rewrite (call_cached _ _ _ E) in S. inversion S; subst.
      constructor. exact E.
  - cbn in S.
    destruct (requests w !! id) as [pp|] eqn:L; cbn in S; [| discriminate].
    destruct (request_awaits _ C _ _ L) as (o & token & A).
    inversion S; subst; clear S. rewrite A.
    set (w0 := set_requests (delete id (requests w)) w).
    destruct (attempt pp) as [p|p] eqn:At.
    + destruct r as [response|e].
      * rewrite resume_getNewAccessToken.
        destruct (thrown (onTokensRefreshedCallback (store w))
                    (refreshed now response)) as [e|] eqn:T.
        -- rewrite (first_attempt_callback_throws w0 now p _ e T).
           apply (task_first_fails now w id pp p (Fulfilled response)
                    (Some (refreshed now response)) L At).
           cbn. rewrite T. reflexivity.
        -- rewrite (first_attempt_succeeds now p _ w0 T).
           apply (task_first_succeeds now w id pp p response L At T).
      * rewrite resume_getNewAccessToken_rejected, first_attempt_rejected.
        replace w0 with (stored now (Rejected e) w0) at 1
          by (unfold stored; cbn; rewrite app_nil_r; reflexivity).
        apply (task_first_fails now w id pp p (Rejected e) None L At).
        reflexivity.
    + change (resume (getNewAccessToken o token) now r)
        with (resume (first_post w0) now r).
      rewrite retry_attempt_runs.
      apply (task_retry_settles now w id pp p r L At).
  - cbn in S.
    destruct (timers w !! id) as [[due p]|] eqn:L; cbn in S; [| discriminate].
    destruct (Z.leb_spec due now) as [D|D]; [| discriminate].
    inversion S; subst; clear S. rewrite retry_posts.
    apply (task_timer now w id due p L D).
Qed.

Lemma settled_pending p r ws w :
  promises w !! p = Some (Pending ws) ->
  settled p r w =
  set_trace
    (trace w ++ settled_effect p r ::
       ((fun c => Deliver c (delivered r (store w))) <$> ws))
    (set_promises (<[p := Done r]> (promises w)) w).
Proof. intros L. unfold settled. rewrite L. reflexivity. Qed.

Lemma settled_store p r w : store (settled p r w) = store w.
Proof. unfold settled. destruct (promises w !! p) as [[|]|]; reflexivity. Qed.


Lemma settled_timers p r w : timers (settled p r w) = timers w.
Proof. unfold settled. destruct (promises w !! p) as [[|]|]; reflexivity. Qed.

Lemma settled_next_promise p r w : next_promise (settled p r w) = next_promise w.
Proof. unfold settled. destruct (promises w !! p) as [[|]|]; reflexivity. Qed.

Lemma settled_next_request p r w : next_request (settled p r w) = next_request w.
Proof. unfold settled. destruct (promises w !! p) as [[|]|]; reflexivity. Qed.

Lemma settled_next_timer p r w : next_timer (settled p r w) = next_timer w.
Proof. unfold settled. destruct (promises w !! p) as [[|]|]; reflexivity. Qed.

Ltac lookups :=
  repeat match goal with
  | H : <[_ := _]> _ !! _ = Some _ |- _ =>
      rewrite lookup_insert in H; case_decide;
      [inversion H; subst; clear H |]
  | H : delete _ _ !! _ = Some _ |- _ =>
      apply lookup_delete_Some in H as [? H]
  end.

Lemma initial_orderly s : _promise s = None -> orderly (initial_World s).
Proof. intros N. constructor; cbn; intros; simplify_map_eq; congruence. Qed.

Ltac facts C O :=
  repeat match goal with
  | H : requests ?w !! ?i = Some ?pp |- _ =>
      lazymatch goal with
      | _ : i < next_request w |- _ => fail
      | _ => pose proof (request_bound w C i pp H);
             pose proof (request_fresh w O i pp H)
      end
  | H : timers ?w !! ?i = Some (?d, ?p) |- _ =>
      lazymatch goal with
      | _ : p < next_promise w |- _ => fail
      | _ => pose proof (timer_bound w C i d p H)
      end
  | H : timers ?w !! ?i = Some ?d |- _ =>
      lazymatch goal with
      | _ : i < next_timer w |- _ => fail
      | _ => pose proof (timer_fresh w O i d H)
      end
  | H : promises ?w !! ?p = Some ?st |- _ =>
      lazymatch goal with
      | _ : p < next_promise w |- _ => fail
      | _ => pose proof (promise_fresh w O p st H)
      end
  end.

Lemma step_orderly now ev w w' :
  consistent w -> orderly w -> step now ev w = Some w' -> orderly w'.
Proof.
  intros C O S. destruct (step_task now ev w w' C S)
    as [callback | caller E | caller p ws E N L | caller E N
       | id pp p r first L A F | id pp p response L A T
       | id pp p r L A | id due p L D].
  - destruct O. constructor; cbn; eauto.
  - destruct O. constructor; cbn; eauto.
  - (* a caller joins *)
    constructor; cbn.
    + intros q st H. lookups; facts C O; lia.
    + apply (request_fresh _ O).
    + apply (timer_fresh _ O).
    + apply (marker_first _ O).
    + intros id pp H. destruct (request_pending _ O _ _ H) as [ws' H'].
      rewrite lookup_insert. case_decide; subst; eauto.
    + intros id due q H. destruct (timer_pending _ O _ _ _ H) as [ws' H'].
      rewrite lookup_insert. case_decide; subst; eauto.
    + apply (one_request _ O).
    + apply (one_timer _ O).
    + apply (request_xor_timer _ O).
  - (* a caller starts a refresh *)
    constructor; cbn.
    + intros q st H. lookups; facts C O; lia.
    + intros id pp H. lookups; facts C O; lia.
    + apply (timer_fresh _ O).
    + intros q Q. inversion Q; subst.
      eexists _, _. rewrite lookup_insert_eq. split; reflexivity.
    + intros id pp H. lookups.
      * cbn. rewrite lookup_insert_eq. eauto.
      * destruct (request_pending _ O _ _ H) as [ws' H'].
        facts C O. rewrite lookup_insert_ne by lia. eauto.
    + intros id due q H. destruct (timer_pending _ O _ _ _ H) as [ws' H'].
      facts C O. rewrite lookup_insert_ne by lia. eauto.
    + intros id id' pp pp' H H' Q.
      lookups; facts C O; cbn in *; try reflexivity; try lia.
      eapply (one_request _ O); eauto.
    + apply (one_timer _ O).
    + intros id pp t due q H H'.
      lookups; facts C O; cbn in *; try lia.
      eapply (request_xor_timer _ O); eauto.
  - (* the first attempt fails *)
    assert (promise_of (attempt pp) = p) as P by (rewrite A; reflexivity).
    subst p. constructor; cbn.
    + apply (promise_fresh _ O).
    + intros id' pp' H. lookups. eapply (request_fresh _ O); eauto.
    + intros id' d H. lookups; facts C O; lia.
    + intros q Q. discriminate.
    + intros id' pp' H. lookups. eapply (request_pending _ O); eauto.
    + intros id' due q H. lookups.
      * eapply (request_pending _ O); eauto.
      * eapply (timer_pending _ O); eauto.
    + intros id1 id2 pp1 pp2 H1 H2 Q. lookups. eapply (one_request _ O); eauto.
    + intros id1 id2 due1 due2 q H1 H2.
      lookups; try reflexivity;
        try (exfalso; eapply (request_xor_timer _ O); eauto; fail).
      eapply (one_timer _ O); eauto.
    + intros id' pp' t due q H H'. lookups.
      * intros Q.
        match goal with N : id <> id' |- _ => apply N end.
        eapply (one_request _ O); eauto; congruence.
      * eapply (request_xor_timer _ O); eauto.
  - (* the first attempt succeeds *)
    assert (promise_of (attempt pp) = p) as P by (rewrite A; reflexivity).
    subst p. destruct (request_pending _ O _ _ L) as [ws Lp].
    unfold cleared. erewrite settled_pending by (cbn; exact Lp).
    constructor; cbn.
    + intros q st H. lookups; facts C O; lia.
    + intros id' pp' H. lookups. eapply (request_fresh _ O); eauto.
    + apply (timer_fresh _ O).
    + intros q Q. discriminate.
    + intros id' pp' H. lookups.
      destruct (request_pending _ O _ _ H) as [ws' H'].
      rewrite lookup_insert_ne; [eauto |].
      intros Q.
      match goal with N : id <> id' |- _ => apply N end.
      eapply (one_request _ O); eauto; congruence.
    + intros id' due q H. destruct (timer_pending _ O _ _ _ H) as [ws' H'].
      rewrite lookup_insert_ne; [eauto |].
      intros Q. subst q. eapply (request_xor_timer _ O); eauto.
    + intros id1 id2 pp1 pp2 H1 H2 Q. lookups. eapply (one_request _ O); eauto.
    + apply (one_timer _ O).
    + intros id' pp' t due q H H'. lookups.
      eapply (request_xor_timer _ O); eauto.
  - (* the retry settles *)
    assert (promise_of (attempt pp) = p) as P by (rewrite A; reflexivity).
    subst p. destruct (request_pending _ O _ _ L) as [ws Lp].
    erewrite settled_pending by (cbn; exact Lp).
    assert (_promise (store_then now r (store w)) = _promise (store w)) as M
      by (destruct r; reflexivity).
    constructor; cbn.
    + intros q st H. lookups; facts C O; lia.
    + intros id' pp' H. lookups. eapply (request_fresh _ O); eauto.
    + apply (timer_fresh _ O).
    + intros q Q. rewrite M in Q.
      destruct (marker_first _ O q Q) as (id' & pp' & H & A').
      exists id', pp'. split; [| exact A'].
      rewrite lookup_delete_ne; [exact H |].
      intros ->. rewrite L in H. inversion H; subst. congruence.
    + intros id' pp' H. lookups.
      destruct (request_pending _ O _ _ H) as [ws' H'].
      rewrite lookup_insert_ne; [eauto |].
      intros Q.
      match goal with N : id <> id' |- _ => apply N end.
      eapply (one_request _ O); eauto; congruence.
    + intros id' due q H. destruct (timer_pending _ O _ _ _ H) as [ws' H'].
      rewrite lookup_insert_ne; [eauto |].
      intros Q. subst q. eapply (request_xor_timer _ O); eauto.
    + intros id1 id2 pp1 pp2 H1 H2 Q. lookups. eapply (one_request _ O); eauto.
    + apply (one_timer _ O).
    + intros id' pp' t due q H H'. lookups.
      eapply (request_xor_timer _ O); eauto.
  - (* the timer fires *)
    constructor; cbn.
    + apply (promise_fresh _ O).
    + intros id' pp' H. lookups; facts C O; lia.
    + intros id' d H. lookups. eapply (timer_fresh _ O); eauto.
    + intros q Q. destruct (marker_first _ O q Q) as (id' & pp' & H & A').
      exists id', pp'. split; [| exact A'].
      facts C O. rewrite lookup_insert_ne by lia. exact H.
    + intros id' pp' H. lookups.
      * cbn. eapply (timer_pending _ O); eauto.
      * eapply (request_pending _ O); eauto.
    + intros id' due' q H. lookups. eapply (timer_pending _ O); eauto.
    + intros id1 id2 pp1 pp2 H1 H2 Q.
      lookups; cbn in Q; try reflexivity;
        try (exfalso; eapply (request_xor_timer _ O); eauto; fail).
      eapply (one_request _ O); eauto.
    + intros id1 id2 due1 due2 q H1 H2. lookups. eapply (one_timer _ O); eauto.
    + intros id' pp' t due' q H H'. lookups.
      * cbn. intros Q. subst q.
        match goal with N : id <> t |- _ => apply N end.
        eapply (one_timer _ O); eauto.
      * eapply (request_xor_timer _ O); eauto.
Qed.

Lemma reachable_orderly w : reachable w -> orderly w.
Proof.
  induction 1 as [o t | w now ev w' R IH S].
  - apply initial_orderly. reflexivity.
  - eapply step_orderly; eauto. apply reachable_consistent, R.
Qed.

(** ** The marker, the promises and what is outstanding *)

Lemma settled_done_stays q r' p r w :
  promises w !! p = Some (Done r) ->
  promises (settled q r' w) !! p = Some (Done r).
Proof.
  intros L. unfold settled.
  destruct (promises w !! q) as [[ws|r'']|] eqn:Q; try exact L.
  cbn. rewrite lookup_insert_ne; [exact L |]. intros ->. congruence.
Qed.

Lemma step_done_stays now ev w w' p r :
  consistent w -> orderly w -> step now ev w = Some w' ->
  promises w !! p = Some (Done r) -> promises w' !! p = Some (Done r).
Proof.
  intros C O S L. destruct (step_task now ev w w' C S)
    as [callback | caller E | caller q ws E N Lq | caller E N
       | id pp q r' first Lr A F | id pp q response Lr A T
       | id pp q r' Lr A | id due q Lt D]; cbn; try exact L.
  - rewrite lookup_insert_ne; [exact L |]. intros ->. congruence.
  - pose proof (promise_fresh _ O _ _ L).
    rewrite lookup_insert_ne by lia. exact L.
  - rewrite settled_done_stays with (r := r); [reflexivity | exact L].
  - rewrite settled_done_stays with (r := r); [reflexivity | exact L].
Qed.

(** In every reachable world the marker [_promise] holds a promise
    exactly when the first POST of that promise's refresh is in flight: it
    is set with the first POST and it is null again as soon as that POST
    has settled, during the delay and the retry as well. *)
Theorem marker_iff_first_attempt (w : World) (p : nat) :
  reachable w ->
  (_promise (store w) = Some p <->
   exists id pp, requests w !! id = Some pp /\ attempt pp = FirstAttempt p).
Proof.
  intros R. split.
  - apply (marker_first _ (reachable_orderly w R)).
  - intros (id & pp & L & A).
    exact (first_marked _ (reachable_consistent w R) _ _ _ L A).
Qed.

Lemma reachable_waiting_example : reachable (waiting example_world [1]).
Proof.
  apply (reachable_step example_world 3600000%Z (getAccessToken_called 1)).
  - apply reachable_new.
  - apply first_caller_starts; [reflexivity | cbn; lia].
Qed.

Lemma marker_iff_first_attempt_witness :
  reachable (waiting example_world [1]) /\
  (_promise (store (waiting example_world [1])) = Some 0 <->
   exists id pp,
     requests (waiting example_world [1]) !! id = Some pp /\
     attempt pp = FirstAttempt 0).
Proof.
  split; [exact reachable_waiting_example |].
  exact (marker_iff_first_attempt _ 0 reachable_waiting_example).
Defined.

(** The promise of a refresh is pending for as long as its POST or its
    timer is outstanding, so [resolve] and [reject] never reach a promise
    that is already settled; and once a promise is settled, no later task
    changes its outcome. *)
Theorem promise_settled_once (w : World) :
  reachable w ->
  (forall id pp,
     requests w !! id = Some pp ->
     exists ws, promises w !! promise_of (attempt pp) = Some (Pending ws)) /\
  (forall id due p,
     timers w !! id = Some (due, p) ->
     exists ws, promises w !! p = Some (Pending ws)) /\
  (forall now ev w' p r,
     step now ev w = Some w' ->
     promises w !! p = Some (Done r) ->
     promises w' !! p = Some (Done r)).
Proof.
  intros R. pose proof (reachable_consistent w R) as C.
  pose proof (reachable_orderly w R) as O.
  split; [apply (request_pending _ O) |].
  split; [apply (timer_pending _ O) |].
  intros now ev w' p r S L. exact (step_done_stays now ev w w' p r C O S L).
Qed.

Lemma promise_settled_once_witness :
  reachable (waiting example_world [1]) /\
  exists ws,
    promises (waiting example_world [1]) !! 0 = Some (Pending ws).
Proof.
  split; [exact reachable_waiting_example |].
  assert (requests (waiting example_world [1]) !! 0 =
          Some {| awaiting := resume (first_post example_world);
                  attempt := FirstAttempt 0 |}) as L
    by (cbn; apply lookup_insert_eq).
  exact (proj1 (promise_settled_once _ reachable_waiting_example) 0 _ L).
Defined.

(** ** What a task adds to the trace *)

Lemma settled_trace p r w : trace (settled p r w) = trace w ++ settling p r w.
Proof.
  unfold settled, settling.
  destruct (promises w !! p) as [[ws|r']|]; cbn; rewrite ?app_nil_r; reflexivity.
Qed.

Lemma In_delivers c0 r0 (g : nat -> Settled string) (l : list nat) :
  In (Deliver c0 r0) ((fun c => Deliver c (g c)) <$> l) -> exists c, r0 = g c.
Proof.
  induction l as [|c l IH]; cbn; [tauto |].
  intros [H | H]; [inversion H; eauto | auto].
Qed.

Lemma In_Deliver_settling c a p r w :
  In (Deliver c (Fulfilled a)) (settling p r w) ->
  a = access_token (tokens (store w)).
Proof.
  unfold settling. destruct (promises w !! p) as [[ws|r']|]; cbn; try tauto.
  intros [H | H]; [destruct r; discriminate |].
  apply In_delivers in H as [_ H]. destruct r; cbn in H; congruence.
Qed.

Lemma In_Deliver_notified c r cb t : ~ In (Deliver c r) (notified cb t).
Proof. destruct cb; cbn; intuition discriminate. Qed.

Lemma In_Deliver_trace_then c r' now r s : ~ In (Deliver c r') (trace_then now r s).
Proof.
  destruct r; cbn; [| tauto].
  intros [H | H]; [discriminate | exact (In_Deliver_notified _ _ _ _ H)].
Qed.

(** A caller is never handed a stale access token: whatever access token
    a task delivers, to a caller served from the cache or to the waiters
    of a refresh, is the one stored when the task ends. *)
Theorem delivered_token_is_stored (w : World) (now : Z) (ev : event) (w' : World) :
  reachable w ->
  step now ev w = Some w' ->
  exists added,
    trace w' = trace w ++ added /\
    forall caller a,
      In (Deliver caller (Fulfilled a)) added ->
      a = access_token (getTokens (store w')).
Proof.
  intros R S. pose proof (reachable_consistent w R) as C.
  unfold getTokens.
  destruct (step_task now ev w w' C S)
    as [callback | caller E | caller p ws E N L | caller E N
       | id pp p r first L A F | id pp p response L A T
       | id pp p r L A | id due p L D].
  - exists []. split; [cbn; rewrite app_nil_r; reflexivity | cbn; tauto].
  - eexists. split; [reflexivity |]. cbn.
    intros c a [H | []]. inversion H; reflexivity.
  - exists []. split; [cbn; rewrite app_nil_r; reflexivity | cbn; tauto].
  - eexists. split; [reflexivity |]. cbn. intros c a [H | []]. discriminate.
  - eexists. split; [cbn; rewrite <- app_assoc; reflexivity |].
    intros c a H. apply in_app_or in H as [H | H].
    + destruct (In_Deliver_trace_then _ _ _ _ _ H).
    + cbn in H. intuition discriminate.
  - eexists. split.
    { unfold cleared. cbn [trace set_trace]. rewrite settled_trace.
      cbn [trace stored set_trace]. rewrite <- !app_assoc. reflexivity. }
    intros c a H. unfold cleared. cbn [store set_trace set_store tokens assign_promise].
    rewrite settled_store.
    apply in_app_or in H as [H | H];
      [destruct (In_Deliver_trace_then _ _ _ _ _ H) |].
    apply in_app_or in H as [H | H].
    + apply In_Deliver_settling in H. exact H.
    + cbn in H. intuition discriminate.
  - eexists. split.
    { rewrite settled_trace. cbn [trace stored set_trace].
      rewrite <- !app_assoc. reflexivity. }
    intros c a H. rewrite settled_store.
    apply in_app_or in H as [H | H];
      [destruct (In_Deliver_trace_then _ _ _ _ _ H) |].
    apply In_Deliver_settling in H. exact H.
  - eexists. split; [reflexivity |]. cbn. intros c a [H | []]. discriminate.
Qed.

Lemma delivered_token_is_stored_witness :
  reachable example_world /\
  step 5%Z (getAccessToken_called 1) example_world =
    Some (set_trace [Deliver 1 (Fulfilled "a1"%string)] example_world) /\
  exists added,
    trace (set_trace [Deliver 1 (Fulfilled "a1"%string)] example_world) =
      trace example_world ++ added /\
    forall caller a,
      In (Deliver caller (Fulfilled a)) added ->
      a = access_token
            (getTokens
               (store (set_trace [Deliver 1 (Fulfilled "a1"%string)] example_world))).
Proof.
  split; [apply reachable_new |]. split; [reflexivity |].
  exact (delivered_token_is_stored example_world 5%Z (getAccessToken_called 1) _
           (reachable_new _ _) eq_refl).
Defined.

Lemma count_Post_settling p r w : count is_Post (settling p r w) = 0.
Proof.
  unfold settling. destruct (promises w !! p) as [[ws|r']|]; try reflexivity.
  rewrite count_Post_settled. apply count_Post_delivers.
Qed.

Lemma count_Notify_settling p r w : count is_Notify (settling p r w) = 0.
Proof.
  unfold settling. destruct (promises w !! p) as [[ws|r']|]; try reflexivity.
  rewrite count_cons, count_Notify_delivers. destruct r; reflexivity.
Qed.

Lemma count_zero_not_In f e t : count f t = 0 -> f e = true -> ~ In e t.
Proof.
  unfold count. intros C0 T H.
  assert (In e (List.filter f t)) as H' by (apply List.filter_In; auto).
  destruct (List.filter f t); [destruct H' | discriminate].
Qed.

Lemma Notify_in_added name t t0 cb tail :
  count is_Notify tail = 0 ->
  In (Notify name t) (Assign t0 :: notified cb t0 ++ tail) ->
  exists callback,
    cb = Some callback /\ name = cb_name callback /\ t = t0 /\
    Assign t0 :: notified cb t0 ++ tail = Assign t :: Notify name t :: tail.
Proof.
  intros C0 [H | H]; [discriminate |].
  destruct cb as [callback|]; cbn in H.
  - destruct H as [H | H].
    + inversion H; subst. eauto.
    + destruct (count_zero_not_In is_Notify (Notify name t) tail C0 eq_refl H).
  - destruct (count_zero_not_In is_Notify (Notify name t) tail C0 eq_refl H).
Qed.

(** The callback is only ever invoked by the task in which a POST of the
    store is fulfilled, at most once in that task, right after the new
    token set has been assigned and with that very set, which is the set
    stored when the task ends; the callback invoked is the one in the
    slot, and no task other than [onRefreshToken] changes the slot. *)
Theorem callback_follows_store (w : World) (now : Z) (ev : event) (w' : World) :
  reachable w ->
  step now ev w = Some w' ->
  exists added,
    trace w' = trace w ++ added /\
    (forall name t,
       In (Notify name t) added ->
       exists id response callback rest,
         ev = post_settled id (Fulfilled response) /\
         t = refreshed now response /\
         onTokensRefreshedCallback (store w) = Some callback /\
         name = cb_name callback /\
         added = Assign t :: Notify name t :: rest /\
         count is_Notify rest = 0 /\
         getTokens (store w') = t) /\
    ((forall callback, ev <> onRefreshToken_called callback) ->
     onTokensRefreshedCallback (store w') = onTokensRefreshedCallback (store w)).
Proof.
  intros R S. pose proof (reachable_consistent w R) as C.
  unfold getTokens.
  destruct (step_task now ev w w' C S)
    as [callback | caller E | caller p ws E N L | caller E N
       | id pp p r first L A F | id pp p response L A T
       | id pp p r L A | id due p L D].
  - exists []. split; [cbn; rewrite app_nil_r; reflexivity |].
    split; [cbn; tauto |]. intros H. destruct (H callback eq_refl).
  - eexists. split; [reflexivity |]. split; [| reflexivity].
    cbn. intros name t [H | []]. discriminate.
  - exists []. split; [cbn; rewrite app_nil_r; reflexivity |].
    split; [cbn; tauto | reflexivity].
  - eexists. split; [reflexivity |]. split; [| reflexivity].
    cbn. intros name t [H | []]. discriminate.
  - eexists. split; [cbn; rewrite <- app_assoc; reflexivity |].
    split; [| destruct r; reflexivity].
    intros name t H. destruct r as [response|e]; cbn [trace_then] in H.
    + cbn [app] in H.
      apply Notify_in_added in H as (callback & CB & -> & -> & Eq); [| reflexivity].
      exists id, response, callback. eexists.
      split; [reflexivity |]. split; [reflexivity |]. split; [exact CB |].
      split; [reflexivity |].
      split; [cbn [trace_then app]; exact Eq |]. split; reflexivity.
    + cbn in H. intuition discriminate.
  - eexists. split.
    { unfold cleared. cbn [trace set_trace]. rewrite settled_trace.
      cbn [trace stored set_trace trace_then]. rewrite <- !app_assoc. reflexivity. }
    split.
    + intros name t H. cbn [app] in H.
      apply Notify_in_added in H as (callback & CB & -> & -> & Eq).
      * exists id, response, callback. eexists.
        split; [reflexivity |]. split; [reflexivity |]. split; [exact CB |].
        split; [reflexivity |]. split; [exact Eq |]. split.
        -- rewrite count_app, count_Notify_settling. reflexivity.
        -- unfold cleared. cbn [store set_trace set_store tokens assign_promise].
           rewrite settled_store. reflexivity.
      * rewrite count_app, count_Notify_settling. reflexivity.
    + intros _. unfold cleared.
      cbn [store set_trace set_store onTokensRefreshedCallback assign_promise].
      rewrite settled_store. reflexivity.
  - eexists. split.
    { rewrite settled_trace. cbn [trace stored set_trace].
      rewrite <- !app_assoc. reflexivity. }
    split; [| intros _; rewrite settled_store; destruct r; reflexivity].
    intros name t H. destruct r as [response|e]; cbn [trace_then] in H.
    + cbn [app] in H.
      apply Notify_in_added in H as (callback & CB & -> & -> & Eq).
      * exists id, response, callback. eexists.
        split; [reflexivity |]. split; [reflexivity |]. split; [exact CB |].
        split; [reflexivity |]. split; [exact Eq |].
        split; [apply count_Notify_settling |].
        rewrite settled_store. reflexivity.
      * apply count_Notify_settling.
    + cbn [app] in H.
      destruct (count_zero_not_In is_Notify (Notify name t) _
                  (count_Notify_settling _ _ _) eq_refl H).
  - eexists. split; [reflexivity |]. split; [| reflexivity].
    cbn. intros name t [H | []]. discriminate.
Qed.

Lemma callback_follows_store_witness :
  reachable (waiting example_world [1]) /\
  step 3600050%Z (post_settled 0 (Fulfilled (example_response "a2" "r2")))
    (waiting example_world [1]) =
  Some (refreshed_at_once 3600050%Z (example_response "a2" "r2") example_world [1]) /\
  onTokensRefreshedCallback
    (store (refreshed_at_once 3600050%Z (example_response "a2" "r2")
              example_world [1])) =
  onTokensRefreshedCallback (store (waiting example_world [1])).
Proof.
  assert (step 3600050%Z (post_settled 0 (Fulfilled (example_response "a2" "r2")))
            (waiting example_world [1]) =
          Some (refreshed_at_once 3600050%Z (example_response "a2" "r2")
                  example_world [1])) as S
    by (apply (first_post_fulfilled example_world [1]); reflexivity).
  split; [exact reachable_waiting_example |]. split; [exact S |].
  destruct (callback_follows_store _ _ _ _ reachable_waiting_example S)
    as (added & _ & _ & Slot).
  apply Slot. intros callback H. discriminate H.
Defined.

Lemma step_posts (w : World) (now : Z) (ev : event) (w' : World) :
  consistent w ->
  step now ev w = Some w' ->
  count is_Post (trace w') =
  count is_Post (trace w) +
  match ev with
  | getAccessToken_called _ =>
      if accessTokenExpired now (store w)
      then match _promise (store w) with None => 1 | Some _ => 0 end
      else 0
  | timer_fired _ => 1
  | _ => 0
  end.
Proof.
  intros C S.
  destruct (step_task now ev w w' C S)
    as [callback | caller E | caller p ws E N L | caller E N
       | id pp p r first L A F | id pp p response L A T
       | id pp p r L A | id due p L D].
  - cbn [trace set_store]. lia.
  - rewrite E. cbn [trace set_trace]. count_trace. lia.
  - rewrite E, N. cbn [trace set_promises]. lia.
  - rewrite E, N. cbn [trace waiting]. count_trace. lia.
  - cbn [trace retry_scheduled stored set_trace set_requests]. count_trace.
    rewrite count_Post_trace_then. lia.
  - unfold cleared. cbn [trace set_trace]. rewrite count_app, settled_trace.
    cbn [trace stored set_trace set_requests trace_then]. count_trace.
    rewrite count_Post_settling. lia.
  - rewrite settled_trace. cbn [trace stored set_trace set_requests]. count_trace.
    rewrite count_Post_settling, count_Post_trace_then. lia.
  - cbn [trace set_trace]. count_trace. lia.
Qed.

(** A POST is sent by exactly two kinds of task: a call of
    [getAccessToken] that finds the token expired and no refresh in
    progress, and the firing of a retry timer; each sends one.  The
    settlement of a POST never sends another in the same task, and neither
    does a call that is served from the cache or joins a refresh. *)
Theorem posts_by_task (w : World) (now : Z) (ev : event) (w' : World) :
  reachable w ->
  step now ev w = Some w' ->
  count is_Post (trace w') =
  count is_Post (trace w) +
  match ev with
  | getAccessToken_called _ =>
      if accessTokenExpired now (store w)
      then match _promise (store w) with None => 1 | Some _ => 0 end
      else 0
  | timer_fired _ => 1
  | _ => 0
  end.
Proof.
  intros R S. apply step_posts; [apply reachable_consistent, R | exact S].
Qed.

Lemma posts_by_task_witness :
  reachable example_world /\
  step 3600000%Z (getAccessToken_called 1) example_world =
    Some (waiting example_world [1]) /\
  count is_Post (trace (waiting example_world [1])) = 1.
Proof.
  split; [apply reachable_new |].
  assert (step 3600000%Z (getAccessToken_called 1) example_world =
          Some (waiting example_world [1])) as S
    by (apply first_caller_starts; [reflexivity | cbn; lia]).
  split; [exact S |].
  exact (posts_by_task _ _ _ _ (reachable_new _ _) S).
Defined.

(** ** Whole runs *)


Lemma asked_cons now ev evs :
  asked ((now, ev) :: evs) =
  (match ev with getAccessToken_called _ => 1 | _ => 0 end) + asked evs.
Proof. unfold asked. cbn. destruct ev; reflexivity. Qed.

Lemma size_delete_present {A} (m : gmap nat A) i x :
  m !! i = Some x -> S (size (delete i m)) = size m.
Proof.
  intros L. rewrite <- (insert_delete_id m i x L) at 2.
  rewrite map_size_insert_None by apply lookup_delete_eq. reflexivity.
Qed.

Lemma size_insert_le {A} (m : gmap nat A) i x :
  size (<[i := x]> m) <= S (size m).
Proof. rewrite map_size_insert. destruct (m !! i); cbn; lia. Qed.

Lemma step_posts_bounded now ev w w' :
  reachable w -> step now ev w = Some w' ->
  count is_Post (trace w') + size (timers w') +
    (match _promise (store w') with Some _ => 1 | None => 0 end) <=
  count is_Post (trace w) + size (timers w) +
    (match _promise (store w) with Some _ => 1 | None => 0 end) +
  match ev with getAccessToken_called _ => 2 | _ => 0 end.
Proof.
  intros R S. pose proof (reachable_consistent w R) as C.
  pose proof (step_posts w now ev w' C S) as P.
  destruct (step_task now ev w w' C S)
    as [callback | caller E | caller p ws E N L | caller E N
       | id pp p r first L A F | id pp p response L A T
       | id pp p r L A | id due p L D].
  - rewrite P. cbn. lia.
  - rewrite P, E. cbn. lia.
  - rewrite P, E, N. cbn. rewrite N. lia.
  - rewrite P, E, N. cbn. lia.
  - rewrite P. rewrite (first_marked _ C _ _ _ L A).
    cbn [timers retry_scheduled stored set_trace set_store set_requests
         store _promise assign_promise next_timer].
    pose proof (size_insert_le (timers w) (next_timer w) ((now + 1000)%Z, p)). lia.
  - rewrite P. rewrite (first_marked _ C _ _ _ L A).
    unfold cleared. cbn [timers store set_trace set_store _promise assign_promise].
    rewrite settled_timers. cbn. lia.
  - rewrite P. rewrite settled_timers, settled_store.
    cbn [timers store stored set_trace set_store set_requests].
    destruct r; cbn; lia.
  - rewrite P. cbn [timers store set_trace set_next_request set_requests set_timers].
    pose proof (size_delete_present _ _ _ L). lia.
Qed.

Lemma run_posts_bounded (w w' : World) (evs : list (Z * event)) :
  reachable w ->
  run evs w = Some w' ->
  count is_Post (trace w') + size (timers w') +
    (match _promise (store w') with Some _ => 1 | None => 0 end) <=
  count is_Post (trace w) + size (timers w) +
    (match _promise (store w) with Some _ => 1 | None => 0 end) +
  2 * asked evs.
Proof.
  revert w. induction evs as [|[now ev] evs IH]; intros w R H; cbn in H.
  - inversion H; subst. cbn. lia.
  - destruct (step now ev w) as [w1|] eqn:S; cbn in H; [| discriminate].
    pose proof (step_posts_bounded now ev w w1 R S) as B.
    pose proof (IH w1 (reachable_step w now ev w1 R S) H) as B'.
    rewrite asked_cons. destruct ev; lia.
Qed.

(** The store never floods the token endpoint: in any run from a new
    store, whatever the tasks and their order, the number of POSTs sent is
    at most twice the number of calls of [getAccessToken] (an attempt and
    a retry for a call that starts a refresh, none for the others). *)
Theorem posts_at_most_twice_the_calls (o : OAuth2ClientOptions)
    (t : OAuth2ClientTokensWithExpiration) (evs : list (Z * event)) (w : World) :
  run evs (initial_World (new_TokenStore o t)) = Some w ->
  count is_Post (trace w) <= 2 * asked evs.
Proof.
  intros H.
  pose proof (run_posts_bounded _ _ _ (reachable_new o t) H) as B.
  change (count is_Post (trace (initial_World (new_TokenStore o t)))) with 0 in B.
  change (size (timers (initial_World (new_TokenStore o t)))) with
    (size (∅ : gmap nat (Z * nat))) in B.
  rewrite map_size_empty in B. cbn [initial_World new_TokenStore store _promise] in B.
  lia.
Qed.

Lemma posts_at_most_twice_the_calls_witness :
  run (calls [(3600001%Z, 1); (3600002%Z, 2)] ++
       [(3600050%Z, post_settled 0 (Rejected (AxiosError "503")));
        (3601050%Z, timer_fired 0)]) example_world =
    Some (retrying None example_world [1; 2]) /\
  count is_Post (trace (retrying None example_world [1; 2])) <=
  2 * asked (calls [(3600001%Z, 1); (3600002%Z, 2)] ++
             [(3600050%Z, post_settled 0 (Rejected (AxiosError "503")));
              (3601050%Z, timer_fired 0)]).
Proof.
  assert (run (calls [(3600001%Z, 1); (3600002%Z, 2)] ++
               [(3600050%Z, post_settled 0 (Rejected (AxiosError "503")));
                (3601050%Z, timer_fired 0)]) example_world =
          Some (retrying None example_world [1; 2])) as H.
  { apply (run_timer_fires example_world (3600001%Z, 1) [(3600002%Z, 2)]);
      [reflexivity | repeat constructor; cbn; lia | reflexivity | lia]. }
  split; [exact H |].
  exact (posts_at_most_twice_the_calls example_options _ _ _ H).
Defined.

(** ** Callers are neither lost nor answered twice *)

Section Accounting.

Variable among : nat -> bool.

Lemma asked_of_cons now ev evs :
  asked_of among ((now, ev) :: evs) =
  (match ev with getAccessToken_called caller => if among caller then 1 else 0
   | _ => 0 end) + asked_of among evs.
Proof.
  unfold asked_of. cbn [List.filter]. unfold is_call_of at 1. cbn [snd].
  destruct ev as [| caller | |]; try reflexivity.
  destruct (among caller); reflexivity.
Qed.

Lemma waiters_fold_comm (j1 j2 : nat) (z1 z2 : PromiseState) (y : nat) :
  waiters_among among z1 + (waiters_among among z2 + y) =
  waiters_among among z2 + (waiters_among among z1 + y).
Proof. lia. Qed.

Lemma suspended_fresh w p st :
  promises w !! p = None ->
  suspended_among among (set_promises (<[p := st]> (promises w)) w) =
  waiters_among among st + suspended_among among w.
Proof.
  intros L. unfold suspended_among. cbn [promises set_promises].
  apply (map_fold_insert_L (fun _ st n => waiters_among among st + n)); [| exact L].
  intros. apply waiters_fold_comm; assumption.
Qed.

Lemma suspended_update w p st st' :
  promises w !! p = Some st ->
  suspended_among among (set_promises (<[p := st']> (promises w)) w) +
    waiters_among among st =
  suspended_among among w + waiters_among among st'.
Proof.
  intros L. unfold suspended_among. cbn [promises set_promises].
  rewrite <- (insert_delete_eq (promises w)).
  rewrite (map_fold_insert_L (fun _ st n => waiters_among among st + n));
    [| intros; apply waiters_fold_comm; assumption | apply lookup_delete_eq].
  rewrite (map_fold_delete_L (fun _ st n => waiters_among among st + n) 0 p st
             (promises w));
    [| intros; apply waiters_fold_comm; assumption | exact L].
  lia.
Qed.

Lemma count_to_delivers (g : nat -> Settled string) (l : list nat) :
  count (is_Deliver_to among) ((fun c => Deliver c (g c)) <$> l) =
  length (List.filter among l).
Proof.
  induction l as [|c l IH]; [reflexivity |].
  rewrite fmap_cons, count_cons, IH. cbn [is_Deliver_to List.filter].
  destruct (among c); reflexivity.
Qed.

Lemma count_to_notified cb t : count (is_Deliver_to among) (notified cb t) = 0.
Proof. destruct cb; reflexivity. Qed.

Lemma count_to_trace_then now r s :
  count (is_Deliver_to among) (trace_then now r s) = 0.
Proof.
  destruct r; [| reflexivity]. cbn [trace_then].
  rewrite count_cons, count_to_notified. reflexivity.
Qed.

Lemma count_to_settled_effect p r t :
  count (is_Deliver_to among) (settled_effect p r :: t) =
  count (is_Deliver_to among) t.
Proof. destruct r; reflexivity. Qed.

Lemma settled_accounts p r w :
  count (is_Deliver_to among) (trace (settled p r w)) +
    suspended_among among (settled p r w) =
  count (is_Deliver_to among) (trace w) + suspended_among among w.
Proof.
  unfold settled. destruct (promises w !! p) as [[ws|r']|] eqn:L; try reflexivity.
  cbn [trace set_trace set_promises].
  rewrite count_app, count_to_settled_effect, count_to_delivers.
  pose proof (suspended_update w p (Pending ws) (Done r) L) as U.
  cbn [waiters_among] in U.
  change (suspended_among among (set_trace ?t ?v)) with (suspended_among among v).
  lia.
Qed.

Lemma step_accounts now ev w w' :
  reachable w -> step now ev w = Some w' ->
  count (is_Deliver_to among) (trace w') + suspended_among among w' =
  count (is_Deliver_to among) (trace w) + suspended_among among w +
  match ev with
  | getAccessToken_called caller => if among caller then 1 else 0
  | _ => 0
  end.
Proof.
  intros R S. pose proof (reachable_consistent w R) as C.
  pose proof (reachable_orderly w R) as O.
  destruct (step_task now ev w w' C S)
    as [callback | caller E | caller p ws E N L | caller E N
       | id pp p r first L A F | id pp p response L A T
       | id pp p r L A | id due p L D].
  - cbn [trace set_store].
    change (suspended_among among (set_store _ w)) with (suspended_among among w).
    lia.
  - cbn [trace set_trace]. rewrite count_app, count_cons, count_nil.
    cbn [is_Deliver_to].
    change (suspended_among among (set_trace _ w)) with (suspended_among among w).
    lia.
  - cbn [trace set_promises].
    pose proof (suspended_update w p (Pending ws) (Pending (ws ++ [caller])) L) as U.
    cbn [waiters_among] in U. rewrite List.filter_app, length_app in U.
    cbn [List.filter] in U. destruct (among caller); cbn [length] in U; lia.
  - assert (promises w !! next_promise w = None) as Fr.
    { destruct (promises w !! next_promise w) eqn:Lp; [| reflexivity].
      pose proof (promise_fresh _ O _ _ Lp). lia. }
    pose proof (suspended_fresh w (next_promise w) (Pending [caller]) Fr) as U.
    cbn [trace waiting]. rewrite count_app, count_cons, count_nil.
    cbn [is_Deliver_to].
    change (suspended_among among (waiting w [caller])) with
      (suspended_among among
         (set_promises (<[next_promise w := Pending [caller]]> (promises w)) w)).
    rewrite U. cbn [waiters_among List.filter].
    destruct (among caller); cbn [length]; lia.
  - cbn [trace retry_scheduled stored set_trace set_requests].
    rewrite !count_app, count_to_trace_then, !count_cons, count_nil.
    cbn [is_Deliver_to].
    change (suspended_among among (retry_scheduled now p _)) with
      (suspended_among among w).
    lia.
  - unfold cleared. cbn [trace set_trace].
    rewrite count_app, count_cons, count_nil. cbn [is_Deliver_to].
    match goal with |- context [settled p ?r ?v] =>
      pose proof (settled_accounts p r v) as U;
      change (suspended_among among (set_trace _ (set_store _ (settled p r v))))
        with (suspended_among among (settled p r v)) end.
    cbn [trace stored set_trace set_requests] in U. rewrite count_app in U.
    rewrite count_to_trace_then in U.
    change (suspended_among among
              (stored now (Fulfilled response)
                 (set_requests (delete id (requests w)) w)))
      with (suspended_among among w) in U.
    lia.
  - match goal with |- context [settled p ?r ?v] =>
      pose proof (settled_accounts p r v) as U end.
    cbn [trace stored set_trace set_requests] in U. rewrite count_app in U.
    rewrite count_to_trace_then in U.
    change (suspended_among among
              (stored now r (set_requests (delete id (requests w)) w)))
      with (suspended_among among w) in U.
    lia.
  - cbn [trace set_trace]. rewrite count_app, count_cons, count_nil.
    cbn [is_Deliver_to].
    change (suspended_among among (set_trace _ _)) with (suspended_among among w).
    lia.
Qed.

Lemma run_accounts evs w0 w1 :
  reachable w0 -> run evs w0 = Some w1 ->
  count (is_Deliver_to among) (trace w1) + suspended_among among w1 =
  count (is_Deliver_to among) (trace w0) + suspended_among among w0 +
  asked_of among evs.
Proof.
  revert w0. induction evs as [|[now ev] evs IH]; intros w0 R H; cbn in H.
  - inversion H; subst. cbn. lia.
  - destruct (step now ev w0) as [w2|] eqn:S; cbn in H; [| discriminate].
    rewrite (IH w2 (reachable_step w0 now ev w2 R S) H).
    rewrite (step_accounts now ev w0 w2 R S), asked_of_cons. lia.
Qed.

End Accounting.

(** No caller is lost and none is answered twice, caller by caller: in
    any run from a new store, whatever the tasks and their order, and for
    any choice [among] of callers (one caller, [Nat.eqb caller], or
    several, or all), the outcomes handed to those callers and the places
    they hold in the waiting lists of pending promises add up to the
    number of calls of [getAccessToken] they made.  So a caller that
    called once is either suspended once on a pending promise or has
    received exactly one outcome. *)
Theorem callers_accounted_for (o : OAuth2ClientOptions)
    (t : OAuth2ClientTokensWithExpiration) (evs : list (Z * event)) (w : World)
    (among : nat -> bool) :
  run evs (initial_World (new_TokenStore o t)) = Some w ->
  count (is_Deliver_to among) (trace w) + suspended_among among w =
  asked_of among evs.
Proof.
  intros H. rewrite (run_accounts among evs _ w (reachable_new o t) H).
  reflexivity.
Qed.

Lemma callers_accounted_for_witness :
  run (calls [(5%Z, 3); (3600001%Z, 1); (3600002%Z, 2)]) example_world =
    Some (waiting (set_trace [Deliver 3 (Fulfilled "a1"%string)] example_world)
            [1; 2]) /\
  count (is_Deliver_to (Nat.eqb 2))
    (trace (waiting (set_trace [Deliver 3 (Fulfilled "a1"%string)] example_world)
              [1; 2])) +
  suspended_among (Nat.eqb 2)
    (waiting (set_trace [Deliver 3 (Fulfilled "a1"%string)] example_world)
       [1; 2]) = 1.
Proof.
  assert (run (calls [(5%Z, 3); (3600001%Z, 1); (3600002%Z, 2)]) example_world =
          Some (waiting (set_trace [Deliver 3 (Fulfilled "a1"%string)] example_world)
                  [1; 2])) as H.
  { change (calls [(5%Z, 3); (3600001%Z, 1); (3600002%Z, 2)]) with
      ([(5%Z, getAccessToken_called 3)] ++
       calls [(3600001%Z, 1); (3600002%Z, 2)]).
    rewrite run_app. cbn [run mbind option_bind].
    change (step 5%Z (getAccessToken_called 3) example_world) with
      (Some (set_trace [Deliver 3 (Fulfilled "a1"%string)] example_world)).
    cbn [mbind option_bind].
    apply (callers_wait
             (set_trace [Deliver 3 (Fulfilled "a1"%string)] example_world)
             eq_refl (3600001%Z, 1) [(3600002%Z, 2)]).
    repeat constructor; cbn; lia. }
  split; [exact H |].
  exact (callers_accounted_for example_options _ _ _ (Nat.eqb 2) H).
Defined.

(** ** What is sent to the token endpoint *)

Lemma no_Post_in id req t : count is_Post t = 0 -> ~ In (Post id req) t.
Proof. intros H. exact (count_zero_not_In is_Post (Post id req) t H eq_refl). Qed.

Lemma Assign_in_trace_then now response s :
  In (Assign (refreshed now response)) (trace_then now (Fulfilled response) s).
Proof. left. reflexivity. Qed.

Lemma step_sources now ev w w' :
  reachable w -> step now ev w = Some w' ->
  exists added,
    trace w' = trace w ++ added /\
    options (store w') = options (store w) /\
    (tokens (store w') = tokens (store w) \/
     In (Assign (tokens (store w'))) added) /\
    (forall id req, In (Post id req) added -> req = request (first_post w)).
Proof.
  intros R S. pose proof (reachable_consistent w R) as C.
  destruct (step_task now ev w w' C S)
    as [callback | caller E | caller p ws E N L | caller E N
       | id pp p r first L A F | id pp p response L A T
       | id pp p r L A | id due p L D].
  - exists []. split; [cbn; rewrite app_nil_r; reflexivity |].
    split; [reflexivity |]. split; [left; reflexivity | cbn; tauto].
  - eexists. split; [reflexivity |]. split; [reflexivity |].
    split; [left; reflexivity |]. cbn. intros ? ? [H | []]. discriminate.
  - exists []. split; [cbn; rewrite app_nil_r; reflexivity |].
    split; [reflexivity |]. split; [left; reflexivity | cbn; tauto].
  - eexists. split; [reflexivity |]. split; [reflexivity |].
    split; [left; reflexivity |]. cbn. intros ? ? [H | []].
    inversion H; reflexivity.
  - eexists. split; [cbn; rewrite <- app_assoc; reflexivity |].
    split; [destruct r; reflexivity |]. split.
    + destruct r as [response|e]; [right | left; reflexivity].
      apply in_or_app. left. apply Assign_in_trace_then.
    + intros id' req H. exfalso. revert H. apply no_Post_in.
      rewrite count_app, count_Post_trace_then. reflexivity.
  - eexists. split.
    { unfold cleared. cbn [trace set_trace]. rewrite settled_trace.
      cbn [trace stored set_trace]. rewrite <- !app_assoc. reflexivity. }
    unfold cleared. cbn [store set_trace set_store options tokens assign_promise].
    rewrite settled_store. split; [reflexivity |]. split.
    + right. apply in_or_app. left. apply Assign_in_trace_then.
    + intros id' req H. exfalso. revert H. apply no_Post_in.
      rewrite !count_app, count_Post_trace_then, count_Post_settling. reflexivity.
  - eexists. split.
    { rewrite settled_trace. cbn [trace stored set_trace].
      rewrite <- !app_assoc. reflexivity. }
    rewrite settled_store. split; [destruct r; reflexivity |]. split.
    + destruct r as [response|e]; [right | left; reflexivity].
      apply in_or_app. left. apply Assign_in_trace_then.
    + intros id' req H. exfalso. revert H. apply no_Post_in.
      rewrite !count_app, count_Post_trace_then, count_Post_settling. reflexivity.
  - eexists. split; [reflexivity |]. split; [reflexivity |].
    split; [left; reflexivity |]. cbn. intros ? ? [H | []].
    inversion H; reflexivity.
Qed.

Lemma run_sources o t0 evs w0 w :
  reachable w0 ->
  options (store w0) = o ->
  (tokens (store w0) = t0 \/ In (Assign (tokens (store w0))) (trace w0)) ->
  (forall id req,
     In (Post id req) (trace w0) ->
     exists token,
       req = request (getNewAccessToken o token) /\
       (token = refresh_token t0 \/
        exists t, In (Assign t) (trace w0) /\ token = refresh_token t)) ->
  run evs w0 = Some w ->
  options (store w) = o /\
  forall id req,
    In (Post id req) (trace w) ->
    exists token,
      req = request (getNewAccessToken o token) /\
      (token = refresh_token t0 \/
       exists t, In (Assign t) (trace w) /\ token = refresh_token t).
Proof.
  revert w0. induction evs as [|[now ev] evs IH]; intros w0 R Ho Ht Hp H; cbn in H.
  - inversion H; subst. auto.
  - destruct (step now ev w0) as [w1|] eqn:S; cbn in H; [| discriminate].
    destruct (step_sources now ev w0 w1 R S) as (added & Tr & O1 & T1 & P1).
    apply (IH w1); try exact H.
    + exact (reachable_step w0 now ev w1 R S).
    + congruence.
    + rewrite Tr. destruct T1 as [T1 | T1].
      * rewrite T1. destruct Ht as [Ht | Ht]; [left; exact Ht | right].
        apply in_or_app. left. exact Ht.
      * right. apply in_or_app. right. exact T1.
    + intros id req I. rewrite Tr in I. apply in_app_or in I as [I | I].
      * destruct (Hp id req I) as (token & Eq & [Src | (t & It & Src)]).
        -- exists token. auto.
        -- exists token. split; [exact Eq |]. right. exists t.
           split; [rewrite Tr; apply in_or_app; left; exact It | exact Src].
      * rewrite (P1 id req I). unfold first_post, getRefreshToken. rewrite Ho.
        eexists. split; [reflexivity |].
        destruct Ht as [Ht | Ht]; [left; rewrite Ht; reflexivity | right].
        eexists. split; [rewrite Tr; apply in_or_app; left; exact Ht | reflexivity].
Qed.

(** Whatever happens to a store, its options stay those it was created
    with, and every request it sends is a [refresh_token] grant: a POST to
    the configured token endpoint, with the form content type, the
    configured client id, secret and scopes, and as refresh token the one
    the store was created with or one that an earlier response brought. *)
Theorem only_refresh_grants_are_sent (o : OAuth2ClientOptions)
    (t0 : OAuth2ClientTokensWithExpiration) (evs : list (Z * event)) (w : World) :
  run evs (initial_World (new_TokenStore o t0)) = Some w ->
  options (store w) = o /\
  forall id req,
    In (Post id req) (trace w) ->
    exists token,
      url req = tokenEndpoint o /\
      headers req = [("Content-Type", "application/x-www-form-urlencoded")]%string /\
      body req =
        RefreshBody refresh_token_grant token (clientId o) (clientSecret o)
          (String.concat " " <$> scopes o) /\
      (token = refresh_token t0 \/
       exists t, In (Assign t) (trace w) /\ token = refresh_token t).
Proof.
  intros H.
  destruct (run_sources o t0 evs _ w (reachable_new o t0) eq_refl
              (or_introl eq_refl)) as [Ho Hp]; [cbn; tauto | exact H |].
  split; [exact Ho |]. intros id req I.
  destruct (Hp id req I) as (token & -> & Src).
  exists token. repeat split; try reflexivity. exact Src.
Qed.

Lemma only_refresh_grants_are_sent_witness :
  run (calls [(3600001%Z, 1)]) example_world = Some (waiting example_world [1]) /\
  options (store (waiting example_world [1])) = example_options.
Proof.
  assert (run (calls [(3600001%Z, 1)]) example_world =
          Some (waiting example_world [1])) as H.
  { apply (callers_wait example_world eq_refl (3600001%Z, 1) []).
    repeat constructor; cbn; lia. }
  split; [exact H |].
  exact (proj1 (only_refresh_grants_are_sent example_options _ _ _ H)).
Defined.

(** ** From a grant to the first refresh, and from one refresh to the next *)

(** A store obtained by a password or authorization grant completed at
    [granted_at] serves the granted access token from the cache, without
    any request, as long as the clock is below
    [granted_at + expires_in * 1000]; from that instant on, the first
    call sends one refresh request, carrying the refresh token of the
    grant and the endpoint, headers, client id, secret and scopes of the
    grant request. *)
Theorem grant_then_refresh (o : OAuth2ClientOptions) (user pass code_ state_ : string)
    (grantType : GrantType) (grant : AsyncPost TokenStore)
    (granted_at now : Z) (response : AxiosResponse) (caller : nat) :
  grant = loginPassword o user pass \/
  grant = loginAuthorization o code_ state_ grantType ->
  exists s c,
    resume grant granted_at (Fulfilled response) = Fulfilled s /\
    body (request grant) = GrantBody c /\
    ((now < granted_at + expires_in (data response) * 1000)%Z ->
       step now (getAccessToken_called caller) (initial_World s) =
       Some (set_trace
               [Deliver caller (Fulfilled (access_token (data response)))]
               (initial_World s))) /\
    ((granted_at + expires_in (data response) * 1000 <= now)%Z ->
       exists w' req,
         step now (getAccessToken_called caller) (initial_World s) = Some w' /\
         trace w' = [Post 0 req] /\
         promises w' !! 0 = Some (Pending [caller]) /\
         url req = url (request grant) /\
         headers req = headers (request grant) /\
         body req =
           RefreshBody refresh_token_grant (refresh_token (data response))
             (client_id c) (client_secret c) (scope_ c)).
Proof.
  intros [-> | ->]; (eexists _, _; split; [reflexivity |]; split; [reflexivity |];
    split;
    [ intros Lt; apply call_cached; apply not_expired_iff; exact Lt
    | intros Ge; eexists _, _; split;
      [ apply first_caller_starts; [reflexivity | exact Ge]
      | split; [reflexivity |]; split; [cbn; apply lookup_insert_eq |];
        repeat split; reflexivity ] ]).
Qed.

Lemma grant_then_refresh_witness :
  (loginPassword example_options "alice" "secret" =
     loginPassword example_options "alice" "secret" \/
   loginPassword example_options "alice" "secret" =
     loginAuthorization example_options "code" "state" ad) /\
  exists s c,
    resume (loginPassword example_options "alice" "secret") 0%Z
      (Fulfilled (example_response "a1" "r1")) = Fulfilled s /\
    body (request (loginPassword example_options "alice" "secret")) = GrantBody c /\
    getTokens s = getTokens example_store.
Proof.
  split; [left; reflexivity |].
  destruct (grant_then_refresh example_options "alice" "secret" "code" "state" ad
              (loginPassword example_options "alice" "secret") 0%Z 5%Z
              (example_response "a1" "r1") 1 (or_introl eq_refl))
    as (s & c & R & B & _).
  exists s, c. split; [exact R |]. split; [exact B |].
  cbn in R. inversion R. reflexivity.
Defined.

(** After a refresh has succeeded at [refreshed_at], the store serves the
    new access token from the cache, without any request, as long as the
    clock is below [refreshed_at + expires_in * 1000]; from that instant
    on, the first call starts a new refresh, with a new promise and one
    POST that carries the refresh token brought by the previous
    response. *)
Theorem refresh_then_cache_then_rotation (w : World) (c : Z * nat)
    (cs : list (Z * nat)) (refreshed_at now : Z) (response : AxiosResponse)
    (caller : nat) :
  _promise (store w) = None ->
  all_expired w (c :: cs) ->
  thrown (onTokensRefreshedCallback (store w)) (refreshed refreshed_at response) =
    None ->
  exists w2,
    run (calls (c :: cs) ++
         [(refreshed_at, post_settled (next_request w) (Fulfilled response))]) w =
      Some w2 /\
    ((now < refreshed_at + expires_in (data response) * 1000)%Z ->
       step now (getAccessToken_called caller) w2 =
       Some (set_trace
               (trace w2 ++
                [Deliver caller (Fulfilled (access_token (data response)))])
               w2)) /\
    ((refreshed_at + expires_in (data response) * 1000 <= now)%Z ->
       exists w3 req,
         step now (getAccessToken_called caller) w2 = Some w3 /\
         trace w3 = trace w2 ++ [Post (S (next_request w)) req] /\
         url req = tokenEndpoint (options (store w)) /\
         headers req =
           [("Content-Type", "application/x-www-form-urlencoded")]%string /\
         body req =
           RefreshBody refresh_token_grant (refresh_token (data response))
             (clientId (options (store w))) (clientSecret (options (store w)))
             (String.concat " " <$> scopes (options (store w))) /\
         _promise (store w3) = Some (S (next_promise w)) /\
         promises w3 !! S (next_promise w) = Some (Pending [caller])).
Proof.
  intros N E T.
  exists (refreshed_at_once refreshed_at response w (snd <$> c :: cs)).
  split; [apply (run_first_fulfilled w c cs N E), T |]. split.
  - intros Lt. apply call_cached. apply not_expired_iff. exact Lt.
  - intros Ge. eexists _, _. split.
    + apply first_caller_starts; [reflexivity | exact Ge].
    + split; [reflexivity |]. split; [reflexivity |]. split; [reflexivity |].
      split; [reflexivity |]. split; [reflexivity |].
      cbn. apply lookup_insert_eq.
Qed.

Lemma refresh_then_cache_then_rotation_witness :
  _promise (store example_world) = None /\
  all_expired example_world [(3600001%Z, 1)] /\
  thrown (onTokensRefreshedCallback (store example_world))
    (refreshed 3600050%Z (example_response "a2" "r2")) = None /\
  exists w2 w3,
    run (calls [(3600001%Z, 1)] ++
         [(3600050%Z, post_settled 0 (Fulfilled (example_response "a2" "r2")))])
      example_world = Some w2 /\
    step 7200050%Z (getAccessToken_called 2) w2 = Some w3 /\
    trace w3 =
      trace w2 ++
      [Post 1
         {| url := "https://auth.example/token";
            body := RefreshBody refresh_token_grant "r2" "app" "secret"
                      (Some "read write"%string);
            headers :=
              [("Content-Type", "application/x-www-form-urlencoded")]%string |}].
Proof.
  assert (all_expired example_world [(3600001%Z, 1)]) as E
    by (repeat constructor; cbn; lia).
  split; [reflexivity |]. split; [exact E |]. split; [reflexivity |].
  destruct (refresh_then_cache_then_rotation example_world (3600001%Z, 1) []
              3600050%Z 7200050%Z (example_response "a2" "r2") 2 eq_refl E eq_refl)
    as (w2 & R & _ & Rotated).
  destruct Rotated as (w3 & req & S & T & U & H & B & _); [cbn; lia |].
  exists w2, w3. split; [exact R |]. split; [exact S |].
  destruct req as [u b h]. cbn in U, H, B. subst u b h. exact T.
Defined.

(** [getAccessToken] does not look at the expiry again after the refresh
    it waited for: when the response of the token endpoint has an
    [expires_in] of zero or less, every waiter still receives the new
    access token, although that token is expired at the very instant it is
    handed out; and the next call starts another refresh at once. *)
Theorem expired_on_arrival_is_still_delivered (w : World) (c : Z * nat)
    (cs : list (Z * nat)) (refreshed_at : Z) (response : AxiosResponse) :
  _promise (store w) = None ->
  all_expired w (c :: cs) ->
  thrown (onTokensRefreshedCallback (store w)) (refreshed refreshed_at response) =
    None ->
  (expires_in (data response) <= 0)%Z ->
  exists w2,
    run (calls (c :: cs) ++
         [(refreshed_at, post_settled (next_request w) (Fulfilled response))]) w =
      Some w2 /\
    List.filter is_Deliver (trace w2) =
      List.filter is_Deliver (trace w) ++
      ((fun caller => Deliver caller (Fulfilled (access_token (data response))))
         <$> (snd <$> c :: cs)) /\
    access_token (getTokens (store w2)) = access_token (data response) /\
    accessTokenExpired refreshed_at (store w2) = true /\
    forall now caller,
      (refreshed_at <= now)%Z ->
      exists w3,
        step now (getAccessToken_called caller) w2 = Some w3 /\
        count is_Post (trace w3) = count is_Post (trace w2) + 1.
Proof.
  intros N E T Le.
  exists (refreshed_at_once refreshed_at response w (snd <$> c :: cs)).
  split; [apply (run_first_fulfilled w c cs N E), T |].
  split; [apply deliveries_refreshed_at_once |]. split; [reflexivity |].
  split; [apply expired_iff; cbn; lia |].
  intros now caller Ge. eexists. split.
  - apply first_caller_starts; [reflexivity | cbn; lia].
  - cbn [trace waiting]. count_trace. lia.
Qed.

Lemma expired_on_arrival_is_still_delivered_witness :
  _promise (store example_world) = None /\
  all_expired example_world [(3600001%Z, 1)] /\
  thrown (onTokensRefreshedCallback (store example_world))
    (refreshed 3600050%Z
       {| data := {| access_token := "a2"; expires_in := 0%Z;
                     refresh_token := "r2"; scope := "read";
                     token_type := "Bearer" |} |}) = None /\
  (0 <= 0)%Z /\
  exists w2,
    run (calls [(3600001%Z, 1)] ++
         [(3600050%Z,
           post_settled 0
             (Fulfilled
                {| data := {| access_token := "a2"; expires_in := 0%Z;
                              refresh_token := "r2"; scope := "read";
                              token_type := "Bearer" |} |}))])
      example_world = Some w2 /\
    List.filter is_Deliver (trace w2) = [Deliver 1 (Fulfilled "a2"%string)] /\
    accessTokenExpired 3600050%Z (store w2) = true.
Proof.
  assert (all_expired example_world [(3600001%Z, 1)]) as E
    by (repeat constructor; cbn; lia).
  split; [reflexivity |]. split; [exact E |]. split; [reflexivity |].
  split; [lia |].
  destruct (expired_on_arrival_is_still_delivered example_world (3600001%Z, 1) []
              3600050%Z
              {| data := {| access_token := "a2"; expires_in := 0%Z;
                            refresh_token := "r2"; scope := "read";
                            token_type := "Bearer" |} |}
              eq_refl E eq_refl ltac:(cbn; lia))
    as (w2 & R & D & _ & X & _).
  exists w2. split; [exact R |]. split; [exact D | exact X].
Defined.

(** The callback slot is read when the new token set is stored, not when
    the refresh starts: a callback registered while the POST of a refresh
    is in flight is the one that is notified when that POST succeeds. *)
Theorem callback_registered_during_refresh (w : World) (c : Z * nat)
    (cs : list (Z * nat)) (callback : Callback) (registered_at now : Z)
    (response : AxiosResponse) :
  _promise (store w) = None ->
  all_expired w (c :: cs) ->
  exists w',
    run (calls (c :: cs) ++
         [(registered_at, onRefreshToken_called callback);
          (now, post_settled (next_request w) (Fulfilled response))]) w = Some w' /\
    List.filter is_Notify (trace w') =
    List.filter is_Notify (trace w) ++
    [Notify (cb_name callback) (refreshed now response)].
Proof.
  intros N E.
  set (w2 := set_store (onRefreshToken callback (store w)) w).
  rewrite run_app, (callers_wait w N c cs E). cbn [mbind option_bind run].
  change (step registered_at (onRefreshToken_called callback)
            (waiting w (snd <$> c :: cs)))
    with (Some (waiting w2 (snd <$> c :: cs))).
  cbn [mbind option_bind].
  change (next_request w) with (next_request w2).
  destruct (thrown (onTokensRefreshedCallback (store w2)) (refreshed now response))
    as [e|] eqn:T.
  - rewrite (first_post_callback_throws w2 _ _ _ _ T).
    eexists. split; [reflexivity |]. cbn [trace delayed trace_after].
    rewrite List.filter_app. reflexivity.
  - rewrite (first_post_fulfilled w2 _ _ _ T).
    eexists. split; [reflexivity |]. cbn [trace refreshed_at_once].
    rewrite List.filter_app. f_equal.
    change (onTokensRefreshedCallback (store w2)) with (Some callback).
    cbn. rewrite List.filter_app, filter_Notify_delivers. reflexivity.
Qed.

Lemma callback_registered_during_refresh_witness :
  _promise (store example_world) = None /\
  all_expired example_world [(3600001%Z, 1)] /\
  exists w',
    run (calls [(3600001%Z, 1)] ++
         [(3600020%Z, onRefreshToken_called quiet_callback);
          (3600050%Z, post_settled 0 (Fulfilled (example_response "a2" "r2")))])
      example_world = Some w' /\
    List.filter is_Notify (trace w') =
    [Notify "persist" (refreshed 3600050%Z (example_response "a2" "r2"))].
Proof.
  assert (all_expired example_world [(3600001%Z, 1)]) as E
    by (repeat constructor; cbn; lia).
  split; [reflexivity |]. split; [exact E |].
  exact (callback_registered_during_refresh example_world (3600001%Z, 1) []
           quiet_callback 3600020%Z 3600050%Z (example_response "a2" "r2")
           eq_refl E).
Defined.

(** ** The version without retry *)

(** Reading a world built by nested updates, field by field. *)
Ltac flat :=
  cbn [store promises requests timers next_promise next_request next_timer
       trace set_store set_promises set_requests set_timers set_next_promise
       set_next_request set_next_timer set_trace Sibling.waiting fst snd
       options tokens _promise onTokensRefreshedCallback assign_promise
       assign_tokens].

Lemma world_ext (a b : World) :
  store a = store b -> promises a = promises b -> requests a = requests b ->
  timers a = timers b -> next_promise a = next_promise b ->
  next_request a = next_request b -> next_timer a = next_timer b ->
  trace a = trace b -> a = b.
Proof. destruct a, b; cbn; intros; subst; reflexivity. Qed.

Section Sibling_steps.

Variable w : World.

Lemma sibling_first_caller_starts now caller :
  _promise (store w) = None ->
  (expires_at (tokens (store w)) <= now)%Z ->
  Sibling.step now (getAccessToken_called caller) w =
  Some (Sibling.waiting w [caller]).
Proof.
  intros N E. apply expired_iff in E.
  unfold Sibling.step, Sibling.getAccessToken, Sibling.refreshToken, await,
    axios_post, emit. run_m.
  rewrite E. cbn. rewrite N. cbn.
  rewrite lookup_insert_eq. cbn. rewrite insert_insert_eq. reflexivity.
Qed.

Lemma sibling_call_joins (v : World) now caller p ws :
  accessTokenExpired now (store v) = true ->
  _promise (store v) = Some p ->
  promises v !! p = Some (Pending ws) ->
  Sibling.step now (getAccessToken_called caller) v =
  Some (set_promises (<[p := Pending (ws ++ [caller])]> (promises v)) v).
Proof.
  intros E N L.
  unfold Sibling.step, Sibling.getAccessToken, Sibling.refreshToken, await. run_m.
  rewrite E. cbn. rewrite N. cbn. rewrite L. reflexivity.
Qed.

Lemma sibling_next_caller_joins now caller callers :
  (expires_at (tokens (store w)) <= now)%Z ->
  Sibling.step now (getAccessToken_called caller) (Sibling.waiting w callers) =
  Some (Sibling.waiting w (callers ++ [caller])).
Proof.
  intros E.
  rewrite (sibling_call_joins _ _ _ (next_promise w) callers).
  - unfold Sibling.waiting. same_world. rewrite insert_insert_eq. reflexivity.
  - apply expired_iff, E.
  - reflexivity.
  - cbn. apply lookup_insert_eq.
Qed.

Lemma sibling_more_callers_join cs callers :
  all_expired w cs ->
  Sibling.run (calls cs) (Sibling.waiting w callers) =
  Some (Sibling.waiting w (callers ++ (snd <$> cs))).
Proof.
  revert callers. induction cs as [|[now c] cs IH]; intros callers E.
  - cbn. rewrite app_nil_r. reflexivity.
  - inversion E as [|? ? E1 E2]; subst. cbn in E1.
    cbn [calls fmap list_fmap Sibling.run fst snd].
    rewrite sibling_next_caller_joins by exact E1. cbn [mbind option_bind].
    change (Sibling.run (calls cs) (Sibling.waiting w (callers ++ [c])) =
            Some (Sibling.waiting w (callers ++ c :: (snd <$> cs)))).
    rewrite IH by exact E2. rewrite <- app_assoc. reflexivity.
Qed.

Lemma sibling_callers_wait c cs :
  _promise (store w) = None ->
  all_expired w (c :: cs) ->
  Sibling.run (calls (c :: cs)) w = Some (Sibling.waiting w (snd <$> c :: cs)).
Proof.
  intros N E. inversion E as [|? ? E1 E2]; subst.
  destruct c as [now c]. cbn [calls fmap list_fmap Sibling.run fst snd].
  cbn in E1. rewrite sibling_first_caller_starts by assumption.
  cbn [mbind option_bind].
  change (Sibling.run (calls cs) (Sibling.waiting w [c]) =
          Some (Sibling.waiting w (c :: (snd <$> cs)))).
  apply (sibling_more_callers_join cs [c] E2).
Qed.

Lemma reject_queued_pending p e ws v :
  promises v !! p = Some (Pending ws) ->
  Sibling.reject_queued p e v =
  (Normal ws,
   set_trace (trace v ++ [Reject p e])
     (set_promises (<[p := Done (Rejected e)]> (promises v)) v)).
Proof.
  intros L. unfold Sibling.reject_queued, emit. run_m. rewrite L. reflexivity.
Qed.

(** How the one attempt of this version settles the promise: on success
    the waiters are resumed before the marker is cleared, on failure
    after. *)
Lemma sibling_post_settles now r callers :
  Sibling.step now (post_settled (next_request w) r) (Sibling.waiting w callers) =
  Some
    (let out :=
       match r with
       | Rejected _ => Rejected retry_failed
       | Fulfilled response =>
           match thrown (onTokensRefreshedCallback (store w))
                   (Sibling.spread now response) with
           | None => Fulfilled tt
           | Some _ => Rejected retry_failed
           end
       end in
     let s :=
       match r with
       | Rejected _ => store w
       | Fulfilled response => assign_tokens (Sibling.spread now response) (store w)
       end in
     {| store := assign_promise None s;
        promises := <[next_promise w := Done out]> (promises w);
        requests := delete (next_request w) (requests w);
        timers := timers w;
        next_promise := S (next_promise w);
        next_request := S (next_request w);
        next_timer := next_timer w;
        trace :=
          trace w ++
          Post (next_request w) (request (Sibling.refresh_post (store w))) ::
          match r with
          | Rejected _ => []
          | Fulfilled response =>
              Assign (Sibling.spread now response) ::
              notified (onTokensRefreshedCallback (store w))
                (Sibling.spread now response)
          end ++
          match out with
          | Fulfilled _ =>
              Resolve (next_promise w) ::
              ((fun c => Deliver c (Fulfilled (access_token (tokens s)))) <$> callers) ++
              [Clear]
          | Rejected e =>
              Reject (next_promise w) e :: Clear ::
              ((fun c => Deliver c (Rejected e)) <$> callers)
          end |}).
Proof.
  unfold Sibling.step. cbn [requests Sibling.waiting].
  rewrite lookup_insert_eq. cbn [mbind option_bind attempt promise_of].
  unfold Sibling.attempt_settled, then_, catch_, finally_, settle_with,
    resolve, emit.
  destruct r as [response|e].
  - unfold run_task, mbind, M_bind, bind, mret, M_ret, ret, modify.
    rewrite setTokens_runs. flat.
    destruct (thrown (onTokensRefreshedCallback (store w))
                (Sibling.spread now response)) as [e|] eqn:T.
    + erewrite reject_queued_pending by (flat; apply lookup_insert_eq).
      flat. rewrite resume_all. flat.
      f_equal. apply world_ext; flat; try reflexivity.
      * apply insert_insert_eq.
      * apply delete_insert_eq.
      * rewrite <- !app_assoc. reflexivity.
    + erewrite settle_pending by (flat; apply lookup_insert_eq).
      flat. f_equal. apply world_ext; flat; try reflexivity.
      * apply insert_insert_eq.
      * apply delete_insert_eq.
      * rewrite <- !app_assoc. reflexivity.
  - unfold run_task, mbind, M_bind, bind, mret, M_ret, ret, modify.
    flat. erewrite reject_queued_pending by (flat; apply lookup_insert_eq).
    flat. rewrite resume_all. flat.
    f_equal. apply world_ext; flat; try reflexivity.
    * apply insert_insert_eq.
    * apply delete_insert_eq.
    * rewrite <- !app_assoc. reflexivity.
Qed.

End Sibling_steps.

Lemma spread_is_refreshed now response :
  Sibling.spread now response = refreshed now response.
Proof. destruct response as [[]]. reflexivity. Qed.

Ltac filter_trace :=
  repeat first
    [ rewrite List.filter_app | rewrite filter_Deliver_notified
    | rewrite filter_Deliver_delivers
    | progress cbn [List.filter is_Deliver app] ];
  rewrite ?app_nil_r.

(** In the version without retry the refresh is single-flight without
    exception: the callers that arrive while the token is expired cause
    one POST and wait on one promise, and whatever the POST settles to,
    that one POST is the only one of the operation, every caller receives
    the same outcome and no timer is started.  The marker is cleared in
    the same task, after the promise has been settled: when the refresh
    succeeded, after the waiters have been resumed with the new token;
    when it failed, before they are resumed with the rejection.  When the
    POST is rejected the stored token set is unchanged and the callback is
    not invoked. *)
Theorem sibling_single_flight (w : World) (c : Z * nat) (cs : list (Z * nat)) :
  _promise (store w) = None ->
  all_expired w (c :: cs) ->
  exists w1,
    Sibling.run (calls (c :: cs)) w = Some w1 /\
    trace w1 =
      trace w ++ [Post (next_request w) (request (Sibling.refresh_post (store w)))] /\
    _promise (store w1) = Some (next_promise w) /\
    promises w1 !! next_promise w = Some (Pending (snd <$> c :: cs)) /\
    forall now r,
      exists w2 out,
        Sibling.step now (post_settled (next_request w) r) w1 = Some w2 /\
        List.filter is_Deliver (trace w2) =
          List.filter is_Deliver (trace w) ++
          ((fun caller => Deliver caller out) <$> (snd <$> c :: cs)) /\
        (exists before,
           count is_Deliver before = 0 /\
           trace w2 =
             trace w1 ++ before ++
             match out with
             | Fulfilled _ =>
                 Resolve (next_promise w) ::
                 ((fun caller => Deliver caller out) <$> (snd <$> c :: cs)) ++
                 [Clear]
             | Rejected e =>
                 Reject (next_promise w) e :: Clear ::
                 ((fun caller => Deliver caller out) <$> (snd <$> c :: cs))
             end) /\
        count is_Post (trace w2) = count is_Post (trace w) + 1 /\
        _promise (store w2) = None /\
        timers w2 = timers w /\
        requests w2 = delete (next_request w) (requests w) /\
        (forall e, r = Rejected e ->
           out = Rejected (Error "Failed to refresh access token") /\
           getTokens (store w2) = getTokens (store w) /\
           count is_Notify (trace w2) = count is_Notify (trace w)).
Proof.
  intros N E. exists (Sibling.waiting w (snd <$> c :: cs)).
  split; [apply sibling_callers_wait; assumption |].
  split; [reflexivity |]. split; [reflexivity |].
  split; [unfold Sibling.waiting; cbn [promises]; apply lookup_insert_eq |].
  intros now r. rewrite sibling_post_settles. cbn zeta.
  destruct r as [response|e];
    [destruct (thrown (onTokensRefreshedCallback (store w))
                 (Sibling.spread now response)) as [e|] |].
  - eexists _, (Rejected retry_failed).
    split; [reflexivity |].
    split; [cbn [trace]; filter_trace; reflexivity |].
    split.
    { exists (Assign (Sibling.spread now response) ::
              notified (onTokensRefreshedCallback (store w))
                (Sibling.spread now response)).
      split; [count_trace; reflexivity |].
      cbn [trace Sibling.waiting]. rewrite <- ?app_assoc. reflexivity. }
    split; [cbn [trace]; count_trace; lia |].
    split; [reflexivity |]. split; [reflexivity |]. split; [reflexivity |].
    intros e' [=].
  - eexists _, (Fulfilled (access_token (data response))).
    split; [reflexivity |].
    split; [cbn [trace]; filter_trace; destruct response as [[]]; reflexivity |].
    split.
    { exists (Assign (Sibling.spread now response) ::
              notified (onTokensRefreshedCallback (store w))
                (Sibling.spread now response)).
      split; [count_trace; reflexivity |].
      cbn [trace Sibling.waiting]. rewrite <- ?app_assoc.
      destruct response as [[]]. reflexivity. }
    split; [cbn [trace]; count_trace; lia |].
    split; [reflexivity |]. split; [reflexivity |]. split; [reflexivity |].
    intros e' [=].
  - eexists _, (Rejected retry_failed).
    split; [reflexivity |].
    split; [cbn [trace]; filter_trace; reflexivity |].
    split.
    { exists []. split; [reflexivity |].
      cbn [trace Sibling.waiting]. rewrite <- ?app_assoc. reflexivity. }
    split; [cbn [trace app]; count_trace; lia |].
    split; [reflexivity |]. split; [reflexivity |]. split; [reflexivity |].
    intros e' _. split; [reflexivity |]. split; [reflexivity |].
    cbn [trace app]. count_trace. lia.
Qed.

Lemma sibling_single_flight_witness :
  _promise (store example_world) = None /\
  all_expired example_world [(3600000%Z, 1); (3600005%Z, 2)] /\
  exists w1,
    Sibling.run (calls [(3600000%Z, 1); (3600005%Z, 2)]) example_world = Some w1 /\
    promises w1 !! 0 = Some (Pending [1; 2]).
Proof.
  assert (all_expired example_world [(3600000%Z, 1); (3600005%Z, 2)]) as E
    by (repeat constructor; cbn; lia).
  split; [reflexivity |]. split; [exact E |].
  destruct (sibling_single_flight example_world (3600000%Z, 1) [(3600005%Z, 2)]
              eq_refl E) as (w1 & R & _ & _ & P & _).
  exists w1. split; [exact R | exact P].
Defined.

Lemma sibling_run_snoc evs now ev w w' :
  Sibling.run evs w = Some w' ->
  Sibling.run (evs ++ [(now, ev)]) w = Sibling.step now ev w'.
Proof.
  revert w. induction evs as [|[at_ ev'] evs IH]; intros w R.
  - injection R as ->. cbn. destruct (Sibling.step now ev w'); reflexivity.
  - cbn in R |- *. destruct (Sibling.step at_ ev' w); cbn in R |- *;
      [apply IH, R | discriminate].
Qed.

Lemma sibling_call_cached now caller w :
  accessTokenExpired now (store w) = false ->
  Sibling.step now (getAccessToken_called caller) w =
  Some (set_trace
          (trace w ++ [Deliver caller (Fulfilled (access_token (tokens (store w))))])
          w).
Proof.
  intros E. unfold Sibling.step, Sibling.getAccessToken, emit. run_m.
  rewrite E. reflexivity.
Qed.

Lemma thrown_notified cb t e : thrown cb t = Some e -> length (notified cb t) = 1.
Proof. destruct cb; [reflexivity | discriminate]. Qed.

(** In the version without retry, a refresh that is reported as failed may
    have taken effect.  When the POST succeeds and the registered callback
    throws on the new token set, every waiting caller is rejected with
    [Error "Failed to refresh access token"], although the store holds the
    new set and the callback has been invoked with it; a call made
    afterwards, before the new set expires, is served the new access token
    from the cache, without any request. *)
Theorem sibling_stored_yet_rejected (w : World) (c : Z * nat) (cs : list (Z * nat))
    (now later : Z) (response : AxiosResponse) (e : JsError) (caller : nat) :
  _promise (store w) = None ->
  all_expired w (c :: cs) ->
  thrown (onTokensRefreshedCallback (store w)) (Sibling.spread now response) = Some e ->
  (later < now + expires_in (data response) * 1000)%Z ->
  exists w2 w3,
    Sibling.run (calls (c :: cs) ++
                 [(now, post_settled (next_request w) (Fulfilled response))]) w =
      Some w2 /\
    List.filter is_Deliver (trace w2) =
      List.filter is_Deliver (trace w) ++
      ((fun waiter =>
          Deliver waiter (Rejected (Error "Failed to refresh access token")))
         <$> (snd <$> c :: cs)) /\
    getTokens (store w2) = Sibling.spread now response /\
    count is_Notify (trace w2) = count is_Notify (trace w) + 1 /\
    _promise (store w2) = None /\
    Sibling.step later (getAccessToken_called caller) w2 = Some w3 /\
    trace w3 =
      trace w2 ++ [Deliver caller (Fulfilled (access_token (data response)))] /\
    store w3 = store w2.
Proof.
  intros N E T Lt.
  eexists _, _. split.
  { erewrite sibling_run_snoc by (apply sibling_callers_wait; eassumption).
    rewrite sibling_post_settles. rewrite T. cbn zeta. reflexivity. }
  split.
  { cbn [trace]. filter_trace. reflexivity. }
  split; [reflexivity |].
  split.
  { cbn [trace]. count_trace. rewrite (thrown_notified _ _ _ T). lia. }
  split; [reflexivity |].
  split.
  { apply sibling_call_cached, not_expired_iff. exact Lt. }
  split; reflexivity.
Qed.

Lemma sibling_stored_yet_rejected_witness :
  _promise (store (watched_world throwing_callback)) = None /\
  all_expired (watched_world throwing_callback) [(3600000%Z, 1)] /\
  thrown (onTokensRefreshedCallback (store (watched_world throwing_callback)))
    (Sibling.spread 3600100%Z (example_response "a2" "r2")) =
    Some (Error "quota exceeded") /\
  (3600200 < 3600100 + expires_in (data (example_response "a2" "r2")) * 1000)%Z /\
  exists w2,
    Sibling.run (calls [(3600000%Z, 1)] ++
                 [(3600100%Z, post_settled 0 (Fulfilled (example_response "a2" "r2")))])
      (watched_world throwing_callback) = Some w2 /\
    access_token (getTokens (store w2)) = "a2"%string.
Proof.
  assert (all_expired (watched_world throwing_callback) [(3600000%Z, 1)]) as E
    by (repeat constructor; cbn; lia).
  assert (3600200 < 3600100 + expires_in (data (example_response "a2" "r2")) * 1000)%Z
    as Lt by (cbn; lia).
  split; [reflexivity |]. split; [exact E |]. split; [reflexivity |].
  split; [exact Lt |].
  destruct (sibling_stored_yet_rejected (watched_world throwing_callback)
              (3600000%Z, 1) [] 3600100%Z 3600200%Z (example_response "a2" "r2")
              (Error "quota exceeded") 7 eq_refl E eq_refl Lt)
    as (w2 & w3 & R & _ & G & _).
  exists w2. split; [exact R |]. rewrite G. reflexivity.
Defined.

(** The two versions of the store do the same on the success path.  From
    an idle store whose token has expired, the calls of the waiting
    callers followed by a successful POST on whose token set the callback
    returns lead both versions to the same world: the same request, the
    same stored token set, the same callback invocation, the same
    deliveries in the same order, and a cleared marker.  (The response
    carries the five declared fields of [OAuth2ClientTokens].) *)
Theorem versions_agree_on_success (w : World) (c : Z * nat) (cs : list (Z * nat))
    (now : Z) (response : AxiosResponse) :
  _promise (store w) = None ->
  all_expired w (c :: cs) ->
  thrown (onTokensRefreshedCallback (store w)) (refreshed now response) = None ->
  exists w',
    run (calls (c :: cs) ++
         [(now, post_settled (next_request w) (Fulfilled response))]) w = Some w' /\
    Sibling.run (calls (c :: cs) ++
                 [(now, post_settled (next_request w) (Fulfilled response))]) w =
      Some w' /\
    getTokens (store w') = refreshed now response /\
    _promise (store w') = None /\
    timers w' = timers w.
Proof.
  intros N E T. exists (refreshed_at_once now response w (snd <$> c :: cs)).
  split; [apply run_first_fulfilled; assumption |].
  split; [| repeat split].
  erewrite sibling_run_snoc by (apply sibling_callers_wait; eassumption).
  rewrite sibling_post_settles, !spread_is_refreshed, T. cbn zeta.
  destruct response as [[]]. reflexivity.
Qed.

Lemma versions_agree_on_success_witness :
  _promise (store (watched_world quiet_callback)) = None /\
  all_expired (watched_world quiet_callback) [(3600000%Z, 1); (3600005%Z, 2)] /\
  thrown (onTokensRefreshedCallback (store (watched_world quiet_callback)))
    (refreshed 3600100%Z (example_response "a2" "r2")) = None /\
  exists w',
    run (calls [(3600000%Z, 1); (3600005%Z, 2)] ++
         [(3600100%Z, post_settled 0 (Fulfilled (example_response "a2" "r2")))])
      (watched_world quiet_callback) = Some w' /\
    Sibling.run (calls [(3600000%Z, 1); (3600005%Z, 2)] ++
                 [(3600100%Z, post_settled 0 (Fulfilled (example_response "a2" "r2")))])
      (watched_world quiet_callback) = Some w'.
Proof.
  assert (all_expired (watched_world quiet_callback)
            [(3600000%Z, 1); (3600005%Z, 2)]) as E
    by (repeat constructor; cbn; lia).
  split; [reflexivity |]. split; [exact E |]. split; [reflexivity |].
  destruct (versions_agree_on_success (watched_world quiet_callback)
              (3600000%Z, 1) [(3600005%Z, 2)] 3600100%Z
              (example_response "a2" "r2") eq_refl E eq_refl)
    as (w' & R & R' & _).
  exists w'. split; [exact R | exact R'].
Defined.

(** A store obtained by [login] of the version without retry, completed
    at [granted_at], serves the granted access token from the cache,
    without any request, as long as the clock is below
    [granted_at + expires_in * 1000]; from that instant on, the first call
    sends one refresh request to the endpoint of the login, with its
    headers, carrying the refresh token of the login response and the
    client id, secret and scopes of the options.  A rejected login request
    is passed on and gives no store. *)
Theorem sibling_login_then_refresh (o : OAuth2ClientOptions) (user pass : string)
    (granted_at now : Z) (response : AxiosResponse) (caller : nat) :
  (forall e, resume (Sibling.login o user pass) granted_at (Rejected e) = Rejected e) /\
  exists s,
    resume (Sibling.login o user pass) granted_at (Fulfilled response) = Fulfilled s /\
    ((now < granted_at + expires_in (data response) * 1000)%Z ->
       Sibling.step now (getAccessToken_called caller) (initial_World s) =
       Some (set_trace
               [Deliver caller (Fulfilled (access_token (data response)))]
               (initial_World s))) /\
    ((granted_at + expires_in (data response) * 1000 <= now)%Z ->
       exists w' req,
         Sibling.step now (getAccessToken_called caller) (initial_World s) = Some w' /\
         trace w' = [Post 0 req] /\
         _promise (store w') = Some 0 /\
         promises w' !! 0 = Some (Pending [caller]) /\
         url req = url (request (Sibling.login o user pass)) /\
         headers req = headers (request (Sibling.login o user pass)) /\
         body req =
           RefreshBody refresh_token_grant (refresh_token (data response))
             (clientId o) (clientSecret o) (joined_scopes o)).
Proof.
  split; [reflexivity |].
  eexists. split; [reflexivity |]. split.
  - intros Lt. apply sibling_call_cached, not_expired_iff. exact Lt.
  - intros Ge. eexists _, _. split.
    + apply sibling_first_caller_starts; [reflexivity | exact Ge].
    + split; [reflexivity |]. split; [reflexivity |].
      split; [unfold Sibling.waiting; cbn [promises]; apply lookup_insert_eq |].
      repeat split; reflexivity.
Qed.

Lemma sibling_login_then_refresh_witness :
  exists s,
    resume (Sibling.login example_options "alice" "secret") 0%Z
      (Fulfilled (example_response "a1" "r1")) = Fulfilled s /\
    Sibling.step 5%Z (getAccessToken_called 1) (initial_World s) =
    Some (set_trace [Deliver 1 (Fulfilled "a1"%string)] (initial_World s)).
Proof.
  destruct (sibling_login_then_refresh example_options "alice" "secret" 0%Z 5%Z
              (example_response "a1" "r1") 1) as (_ & s & R & C & _).
  exists s. split; [exact R |]. apply C. cbn. lia.
Defined.

(** In the version with retry too, a refresh that is reported as failed
    may have taken effect.  When the first POST is rejected and the POST
    of the retry succeeds but the registered callback throws on the new
    token set, every waiting caller is rejected with
    [Error "Failed to refresh access token"], although the store holds the
    new set and the callback has been invoked with it; a call made
    afterwards, before the new set expires, is served the new access token
    from the cache, without any request. *)
Theorem rejected_yet_refreshed (w : World) (c : Z * nat) (cs : list (Z * nat))
    (failed_at fired_at now later : Z) (e thrown_ : JsError)
    (response : AxiosResponse) (caller : nat) :
  _promise (store w) = None ->
  all_expired w (c :: cs) ->
  (failed_at + 1000 <= fired_at)%Z ->
  thrown (onTokensRefreshedCallback (store w)) (refreshed now response) = Some thrown_ ->
  (later < now + expires_in (data response) * 1000)%Z ->
  exists w' w'',
    run (calls (c :: cs) ++
         [(failed_at, post_settled (next_request w) (Rejected e));
          (fired_at, timer_fired (next_timer w));
          (now, post_settled (S (next_request w)) (Fulfilled response))]) w =
      Some w' /\
    List.filter is_Deliver (trace w') =
      List.filter is_Deliver (trace w) ++
      ((fun waiter =>
          Deliver waiter (Rejected (Error "Failed to refresh access token")))
         <$> (snd <$> c :: cs)) /\
    getTokens (store w') = refreshed now response /\
    count is_Notify (trace w') = count is_Notify (trace w) + 1 /\
    _promise (store w') = None /\
    step later (getAccessToken_called caller) w' = Some w'' /\
    trace w'' =
      trace w' ++ [Deliver caller (Fulfilled (access_token (data response)))] /\
    store w'' = store w'.
Proof.
  intros N E D T Lt.
  exists (finished None now (Fulfilled response) w (snd <$> c :: cs)).
  eexists. split.
  { apply (run_retry_settles w c cs N E); [reflexivity | exact D]. }
  split.
  { rewrite deliveries_finished. cbn [retry_outcome]. rewrite T. reflexivity. }
  split; [reflexivity |].
  split.
  { cbn [trace finished retrying trace_after trace_then retry_outcome].
    rewrite T. cbn [settled_effect]. count_trace.
    rewrite (thrown_notified _ _ _ T). lia. }
  split; [reflexivity |].
  split.
  { apply call_cached, not_expired_iff. exact Lt. }
  split; [| reflexivity].
  destruct response as [[]]. reflexivity.
Qed.

Lemma rejected_yet_refreshed_witness :
  _promise (store (watched_world throwing_callback)) = None /\
  all_expired (watched_world throwing_callback) [(3600000%Z, 1)] /\
  (3600100 + 1000 <= 3601100)%Z /\
  thrown (onTokensRefreshedCallback (store (watched_world throwing_callback)))
    (refreshed 3601200%Z (example_response "a2" "r2")) =
    Some (Error "quota exceeded") /\
  (3601300 < 3601200 + expires_in (data (example_response "a2" "r2")) * 1000)%Z /\
  exists w',
    run (calls [(3600000%Z, 1)] ++
         [(3600100%Z, post_settled 0 (Rejected (AxiosError "503")));
          (3601100%Z, timer_fired 0);
          (3601200%Z, post_settled 1 (Fulfilled (example_response "a2" "r2")))])
      (watched_world throwing_callback) = Some w' /\
    access_token (getTokens (store w')) = "a2"%string.
Proof.
  assert (all_expired (watched_world throwing_callback) [(3600000%Z, 1)]) as E
    by (repeat constructor; cbn; lia).
  assert (3601300 < 3601200 + expires_in (data (example_response "a2" "r2")) * 1000)%Z
    as Lt by (cbn; lia).
  split; [reflexivity |]. split; [exact E |]. split; [lia |].
  split; [reflexivity |]. split; [exact Lt |].
  destruct (rejected_yet_refreshed (watched_world throwing_callback)
              (3600000%Z, 1) [] 3600100%Z 3601100%Z 3601200%Z 3601300%Z
              (AxiosError "503") (Error "quota exceeded")
              (example_response "a2" "r2") 7 eq_refl E ltac:(lia) eq_refl Lt)
    as (w' & w'' & R & _ & G & _).
  exists w'. split; [exact R |]. rewrite G. reflexivity.
Defined.

(** * The retry, in every state the store can reach *)

(** ** The three tasks of a retry, from any reachable world *)







(** ** One retry, after the delay, with the refresh token of that moment *)




(** ** The exhausted refresh *)





(** * The grants *)

Section Grant_runs.

Variable o : OAuth2ClientOptions.

Lemma new_logins_only : Grants.logins_only o Grants.new_Client.
Proof. intros id caller a L. cbn in L. rewrite lookup_empty in L. discriminate. Qed.

Lemma step_logins_only now ev g g' :
  Grants.logins_only o g -> Grants.step o now ev g = Some g' ->
  Grants.logins_only o g'.
Proof.
  intros I S id caller a L.
  destruct ev as [user pass c | code_ state_ grantType c | id' r]; cbn in S.
  - inversion S; subst; clear S. cbn in L.
    rewrite lookup_insert in L. case_decide.
    + inversion L; subst. eexists. reflexivity.
    + exact (I id caller a L).
  - inversion S; subst; clear S. cbn in L.
    rewrite lookup_insert in L. case_decide.
    + inversion L; subst. eexists. reflexivity.
    + exact (I id caller a L).
  - destruct (Grants.pending g !! id') as [[c a']|] eqn:L'; cbn in S; [| discriminate].
    inversion S; subst; clear S. cbn in L.
    apply lookup_delete_Some in L as [_ L]. exact (I id caller a L).
Qed.

Lemma thrown_app l l' :
  Grants.thrown (l ++ l') = Grants.thrown l ++ Grants.thrown l'.
Proof.
  induction l as [|[id req | caller s | caller e] l IH]; cbn; rewrite ?IH; reflexivity.
Qed.

Lemma posted_app l l' :
  Grants.posted (l ++ l') = Grants.posted l + Grants.posted l'.
Proof. unfold Grants.posted. rewrite List.filter_app, length_app. reflexivity. Qed.

Lemma returned_app l l' :
  Grants.returned (l ++ l') = Grants.returned l + Grants.returned l'.
Proof. unfold Grants.returned. rewrite List.filter_app, length_app. reflexivity. Qed.

(** What one task adds to the log. *)
Lemma step_log now ev g g' :
  Grants.logins_only o g -> Grants.step o now ev g = Some g' ->
  Grants.posted (Grants.log g') =
    Grants.posted (Grants.log g) + Grants.logins [(now, ev)] /\
  Grants.thrown (Grants.log g') =
    Grants.thrown (Grants.log g) ++ Grants.rejections [(now, ev)] /\
  Grants.returned (Grants.log g') =
    Grants.returned (Grants.log g) + Grants.fulfilments [(now, ev)].
Proof.
  intros I S.
  destruct ev as [user pass c | code_ state_ grantType c | id r]; cbn in S.
  - inversion S; subst; clear S. cbn [Grants.log Grants.called].
    rewrite posted_app, thrown_app, returned_app. cbn. rewrite ?app_nil_r.
    repeat split; lia.
  - inversion S; subst; clear S. cbn [Grants.log Grants.called].
    rewrite posted_app, thrown_app, returned_app. cbn. rewrite ?app_nil_r.
    repeat split; lia.
  - destruct (Grants.pending g !! id) as [[c a]|] eqn:L; cbn in S; [| discriminate].
    inversion S; subst; clear S. cbn [Grants.log].
    destruct (I id c a L) as [clientOptions ->].
    rewrite posted_app, thrown_app, returned_app.
    destruct r as [response|e]; cbn; rewrite ?app_nil_r; repeat split; lia.
Qed.

Lemma logins_cons ev evs :
  Grants.logins (ev :: evs) = Grants.logins [ev] + Grants.logins evs.
Proof. unfold Grants.logins. cbn. destruct (snd ev); reflexivity. Qed.

Lemma fulfilments_cons ev evs :
  Grants.fulfilments (ev :: evs) = Grants.fulfilments [ev] + Grants.fulfilments evs.
Proof.
  unfold Grants.fulfilments. cbn. destruct (snd ev) as [| | id [|]]; reflexivity.
Qed.

Lemma rejections_cons ev evs :
  Grants.rejections (ev :: evs) = Grants.rejections [ev] ++ Grants.rejections evs.
Proof. destruct ev as [now [| | id [|]]]; reflexivity. Qed.

Lemma run_log evs g g' :
  Grants.logins_only o g -> Grants.run o evs g = Some g' ->
  Grants.logins_only o g' /\
  Grants.posted (Grants.log g') = Grants.posted (Grants.log g) + Grants.logins evs /\
  Grants.thrown (Grants.log g') =
    Grants.thrown (Grants.log g) ++ Grants.rejections evs /\
  Grants.returned (Grants.log g') =
    Grants.returned (Grants.log g) + Grants.fulfilments evs.
Proof.
  revert g. induction evs as [|[now ev] evs IH]; intros g I R; cbn [Grants.run] in R.
  - inversion R; subst. cbn. rewrite app_nil_r. repeat split; [exact I | lia | lia].
  - destruct (Grants.step o now ev g) as [g1|] eqn:S; cbn in R; [| discriminate].
    destruct (step_log now ev g g1 I S) as (P & T & Rt).
    destruct (IH g1 (step_logins_only now ev g g1 I S) R) as (I' & P' & T' & Rt').
    rewrite (logins_cons (now, ev) evs), (fulfilments_cons (now, ev) evs),
      (rejections_cons (now, ev) evs).
    split; [exact I' |]. rewrite P', T', Rt', P, T, Rt, <- app_assoc.
    repeat split; lia.
Qed.

End Grant_runs.

(** C9, as stated, fails: the POST of a password grant is rejected with
    the transport's error.  [login] has no [try] around its [await]: the
    caller of [loginPassword] is thrown that very error, the [AxiosError]
    itself, not an error made by this library that wraps it. *)
Lemma C9_transport_error_is_not_wrapped :
  exists g,
    Grants.run example_options
      [(0%Z, Grants.loginPassword_called "alice" "secret" 1);
       (40%Z, Grants.grant_settled 0 (Rejected (AxiosError "503")))]
      Grants.new_Client = Some g /\
    Grants.log g =
      [Grants.Posted 0
         {| url := "https://auth.example/token";
            body :=
              GrantBody
                {| grant_type := password;
                   username := Some "alice"%string;
                   password_ := Some "secret"%string;
                   code := None;
                   state := None;
                   client_id := "app";
                   client_secret := "secret";
                   scope_ := Some "read write"%string |};
            headers :=
              [("Content-Type", "application/x-www-form-urlencoded")]%string |};
       Grants.Threw 1 (AxiosError "503")] /\
    Grants.pending g !! 0 = None.
Proof. eexists. split; [reflexivity |]. split; reflexivity. Qed.

(** C9 — in any run of grants, password or authorization, whatever
    the order of the calls and of the settlements of their POSTs:
    - one POST is sent for each call and none besides: a grant is never
      retried;
    - the errors thrown to the callers are the errors the POSTs were
      rejected with, each once, in the order of the rejections and
      unchanged: a failure is neither swallowed nor wrapped;
    - a [TokenStore] is returned once for each fulfilled POST, so none
      for a rejected one;
    - and when the POST of a suspended grant is rejected, that task
      throws the error to the caller of that grant and does nothing
      else: the grant is over, and no POST is sent. *)
Theorem C9_grant_failure (o : OAuth2ClientOptions)
    (evs : list (Z * Grants.event)) (g : Grants.Client) :
  Grants.run o evs Grants.new_Client = Some g ->
  Grants.posted (Grants.log g) = Grants.logins evs /\
  Grants.thrown (Grants.log g) = Grants.rejections evs /\
  Grants.returned (Grants.log g) = Grants.fulfilments evs /\
  forall id caller a now e,
    Grants.pending g !! id = Some (caller, a) ->
    Grants.step o now (Grants.grant_settled id (Rejected e)) g =
    Some {| Grants.pending := delete id (Grants.pending g);
            Grants.next_post := Grants.next_post g;
            Grants.log := Grants.log g ++ [Grants.Threw caller e] |}.
Proof.
  intros R.
  destruct (run_log o evs _ g (new_logins_only o) R) as (I & P & T & Rt).
  split; [exact P |]. split; [exact T |]. split; [exact Rt |].
  intros id caller a now e L. cbn [Grants.step]. rewrite L. cbn.
  destruct (I id caller a L) as [clientOptions ->]. reflexivity.
Qed.

Lemma C9_grant_failure_witness :
  exists g,
    Grants.run example_options
      [(0%Z, Grants.loginAuthorization_called "code" "state" ad 1);
       (5%Z, Grants.loginPassword_called "alice" "secret" 2);
       (40%Z, Grants.grant_settled 0 (Rejected (AxiosError "503")))]
      Grants.new_Client = Some g /\
    Grants.posted (Grants.log g) = 2 /\
    Grants.thrown (Grants.log g) = [AxiosError "503"] /\
    Grants.returned (Grants.log g) = 0.
Proof.
  eexists. split; [reflexivity |].
  destruct (C9_grant_failure example_options
              [(0%Z, Grants.loginAuthorization_called "code" "state" ad 1);
               (5%Z, Grants.loginPassword_called "alice" "secret" 2);
               (40%Z, Grants.grant_settled 0 (Rejected (AxiosError "503")))]
              _ eq_refl) as (P & T & R & _).
  split; [exact P |]. split; [exact T | exact R].
Defined.
